(** * Polling pipeline of PJHGB/pub: a shallow embedding

    The development follows the Python sources:

    - [ellis/pubsub.py]  ([Event], [Subscription], [EventBus]),
    - [ellis/auth.py]    ([AuthStatus], [AuthResult], [AuthManager]),
    - [ellis/feed.py]    ([OddsFeed], [FeedManager]),
    - [ellis/comparator.py] ([OddsListener]),
    - [ellis/exchange_rates.py] ([ExchangeRates]),
    - [alf/src/classifieds/storage.py] ([ClassifiedStorage]),
    - [alf/src/scheduler.py] ([Scheduler]).

    Conventions.  A Python [dict] whose iteration order is irrelevant is a
    [gmap]; one whose order is observable (the [groups] of [save]) is an
    association list.  A [str] is held as its UTF-8 encoding.
    [time.time()] is an integer number of clock ticks passed to the
    operation that reads it.  What the world outside the sources answers
    (adapters, handlers, the locks and the file system, [repr]) is given
    with each operation.  Wherever the source writes
    [except Exception], a callee that raises is a callee that raises an
    instance of [Exception]; interpreter exits ([SystemExit],
    [KeyboardInterrupt]) are not part of the model. *)

From Stdlib Require Import ZArith QArith Ascii String.
From stdpp Require Import base strings list gmap fin_maps.

Local Open Scope string_scope.
Local Open Scope Z_scope.
Local Open Scope list_scope.

(* ===================================================================== *)
(** * Definitions *)
(* ===================================================================== *)

(** ** [fnmatch.fnmatch], as used by [Subscription.matches]

    A [str] is held as its UTF-8 encoding; [fnmatch] works on its
    characters, the code points.  [fnmatch.translate] turns a shell pattern
    into a regular expression, which is then matched against the whole
    name.  The tokens below are the pieces of that regular expression. *)
Module Fnmatch.

Definition chr (a : ascii) : N := N_of_ascii a.
#[global] Arguments chr : simpl never.

Definition continuation (b : N) : bool := ((128 <=? b) && (b <? 192))%N.

(** The code points of a sequence of bytes; a byte that does not start a
    well-formed sequence stands for itself. *)
Fixpoint decode (bytes : list N) : list N :=
  match bytes with
  | [] => []
  | b :: rest =>
      if (b <? 192)%N then b :: decode rest
      else
        match rest with
        | b1 :: rest1 =>
            if (b <? 224)%N && continuation b1
            then ((b - 192) * 64 + (b1 - 128))%N :: decode rest1
            else
              match rest1 with
              | b2 :: rest2 =>
                  if ((224 <=? b) && (b <? 240))%N
                     && continuation b1 && continuation b2
                  then ((b - 224) * 4096 + (b1 - 128) * 64 + (b2 - 128))%N
                       :: decode rest2
                  else
                    match rest2 with
                    | b3 :: rest3 =>
                        if ((240 <=? b) && (b <? 248))%N && continuation b1
                           && continuation b2 && continuation b3
                        then ((b - 240) * 262144 + (b1 - 128) * 4096
                              + (b2 - 128) * 64 + (b3 - 128))%N :: decode rest3
                        else b :: decode rest
                    | [] => b :: decode rest
                    end
              | [] => b :: decode rest
              end
        | [] => [b]
        end
  end.

Definition codepoints (s : string) : list N :=
  decode (map N_of_ascii (list_ascii_of_string s)).

Inductive token : Type :=
| STAR                                   (* [*]: the regex [.*]            *)
| ANY                                    (* [?]: the regex [.] (DOTALL)    *)
| CLASS (neg : bool) (stuff : list N)    (* [[stuff]] and [[!stuff]]       *)
| LIT (c : N).                           (* [re.escape(c)]                 *)

(** The scan [while j < n and pat[j] != ']': j = j+1]: the text before the
    first closing bracket, if there is one. *)
Fixpoint upto_close (s : list N) : option (list N) :=
  match s with
  | [] => None
  | c :: s' =>
      if N.eqb c (chr "]") then Some []
      else match upto_close s' with
           | Some body => Some (c :: body)
           | None => None
           end
  end.

(** What follows an opening bracket: an optional [!], an optional literal
    []] in first position, then the body up to the closing bracket.  The
    result is the negation flag, the members and the number of pattern
    characters the bracket expression takes after its [[]. *)
Definition bracket (rest : list N) : option (bool * list N * nat) :=
  let '(neg, r1) :=
    match rest with
    | c :: r => if N.eqb c (chr "!") then (true, r) else (false, rest)
    | [] => (false, rest)
    end in
  let '(lead, r2) :=
    match r1 with
    | c :: r => if N.eqb c (chr "]") then ([c], r) else ([], r1)
    | [] => ([], r1)
    end in
  match upto_close r2 with
  | Some body =>
      let stuff := lead ++ body in
      Some (neg, stuff, ((if neg then 1 else 0) + length stuff + 1)%nat)
  | None => None
  end.

(** [translate]: one token per pattern character, except inside a bracket
    expression, whose characters are skipped once the [CLASS] token is
    out ([i = j+1] in the source); a [[] that is never closed is the
    literal [\[]; consecutive stars are compressed into one. *)
Fixpoint translate_from (skip : nat) (pat : list N) : list token :=
  match pat with
  | [] => []
  | c :: pat' =>
      match skip with
      | S k => translate_from k pat'
      | O =>
          if N.eqb c (chr "*") then
            match translate_from O pat' with
            | STAR :: res => STAR :: res
            | res => STAR :: res
            end
          else if N.eqb c (chr "?") then ANY :: translate_from O pat'
          else if N.eqb c (chr "[") then
            match bracket pat' with
            | Some (neg, stuff, n) => CLASS neg stuff :: translate_from n pat'
            | None => LIT c :: translate_from O pat'
            end
          else LIT c :: translate_from O pat'
      end
  end.

Definition translate (pat : string) : list token :=
  translate_from O (codepoints pat).

(** Membership in a bracket expression: [lo-hi] is a range of code points
    (empty when [hi] is before [lo]), any other character stands for
    itself. *)
Fixpoint in_class (c : N) (stuff : list N) : bool :=
  match stuff with
  | [] => false
  | lo :: rest =>
      match rest with
      | dash :: hi :: rest' =>
          if N.eqb dash (chr "-")
          then ((lo <=? c) && (c <=? hi))%N || in_class c rest'
          else N.eqb lo c || in_class c rest
      | _ => N.eqb lo c || in_class c rest
      end
  end.

(** [re.match] of the translated pattern, anchored at both ends. *)
Fixpoint glob (ts : list token) (s : list N) {struct ts} : bool :=
  match ts with
  | [] => match s with [] => true | _ :: _ => false end
  | STAR :: ts' =>
      (fix star (s : list N) : bool :=
         glob ts' s || match s with [] => false | _ :: s' => star s' end) s
  | ANY :: ts' =>
      match s with [] => false | _ :: s' => glob ts' s' end
  | CLASS neg stuff :: ts' =>
      match s with
      | [] => false
      | c :: s' => xorb neg (in_class c stuff) && glob ts' s'
      end
  | LIT a :: ts' =>
      match s with [] => false | c :: s' => N.eqb a c && glob ts' s' end
  end.

(** [fnmatch.fnmatch(name, pat)]; [os.path.normcase] is the identity on a
    POSIX host. *)
Definition fnmatch (name pat : string) : bool :=
  glob (translate pat) (codepoints name).

(** The matching of the specification, in its words: the topic is a single
    string of characters, dots included; [*] in the pattern stands for a
    run of characters, [?] for exactly one character, and any other
    character for itself. *)
Inductive wildcard_match : list N -> list N -> Prop :=
| wm_end : wildcard_match [] []
| wm_star pat run rest :
    wildcard_match pat rest -> wildcard_match (chr "*" :: pat) (run ++ rest)
| wm_one pat c rest :
    wildcard_match pat rest -> wildcard_match (chr "?" :: pat) (c :: rest)
| wm_same a pat rest :
    a <> chr "*" -> a <> chr "?" ->
    wildcard_match pat rest -> wildcard_match (a :: pat) (a :: rest).

(** The same with the runs of [*] required to be non-empty, which is how
    the specification words it. *)
Inductive wildcard_match_nonempty : list N -> list N -> Prop :=
| wn_end : wildcard_match_nonempty [] []
| wn_star pat run rest :
    run <> [] -> wildcard_match_nonempty pat rest ->
    wildcard_match_nonempty (chr "*" :: pat) (run ++ rest)
| wn_one pat c rest :
    wildcard_match_nonempty pat rest ->
    wildcard_match_nonempty (chr "?" :: pat) (c :: rest)
| wn_same a pat rest :
    a <> chr "*" -> a <> chr "?" ->
    wildcard_match_nonempty pat rest ->
    wildcard_match_nonempty (a :: pat) (a :: rest).

End Fnmatch.

(** ** Python calls that may raise

    An exception is kept as its class and its text, [str(exc)], which is
    what the handlers of the sources keep of it.  A [KeyError] keeps its
    key: its text is [repr(key)]. *)
Inductive Exc : Type :=
| KeyError (key : string)
| Error (cls text : string).

#[global] Instance Exc_eq_dec : EqDecision Exc.
Proof. solve_decision. Defined.

(** [repr] on a [str], taken as given. *)
Class PyRepr : Type := repr : string -> string.

(** [str(exc)] *)
Definition str `{PyRepr} (exc : Exc) : string :=
  match exc with
  | KeyError key => repr key
  | Error _ text => text
  end.

(** [repr] on a string of printable ASCII characters other than the quote
    and the backslash, for the examples. *)
Definition quoted : PyRepr := fun s => "'" +:+ s +:+ "'".

(** A call either returns or raises. *)
Inductive Completion (A : Type) : Type :=
| Returned (value : A)
| Raised (exc : Exc).
Arguments Returned {A} value.
Arguments Raised {A} exc.

#[global] Instance Completion_ret : MRet Completion := fun A a => Returned a.

#[global] Instance Completion_bind : MBind Completion :=
  fun A B (k : A -> Completion B) (c : Completion A) =>
    match c with
    | Returned a => k a
    | Raised exc => Raised exc
    end.

(** ** [ellis/models.py] *)
Module Models.

Record Outcome : Type := {
  outcome_name : string;
  odds : Q;                      (* decimal odds, carried through unchanged *)
  outcome_exchange : string;
  outcome_currency : string
}.

Record Market : Type := {
  market_id : string;
  market_name : string;
  event_name : string;
  market_exchange : string;
  market_currency : string;
  outcomes : list Outcome
}.

End Models.

(** ** [ellis/pubsub.py] *)
Module Pubsub.

(** [Event.data] is [Any]; these are the payloads the feeds publish. *)
Inductive Payload : Type :=
| NoData                                   (* [data=None]          *)
| MarketList (markets : list Models.Market)
| ErrorDict (error : string).              (* [{"error": str(exc)}] *)

Record Event : Type := {
  topic : string;
  exchange : string;
  data : Payload;
  timestamp : Z
}.

(** A handler is an opaque callable.  What the bus can observe of one call
    is whether it returns or raises, and the calls it makes back into the
    bus while it runs. *)
#[local] Unset Elimination Schemes.
Inductive BusCall : Type :=
| CallSubscribe (uuid pattern : string)
                (h : Event -> list BusCall * Completion unit)
| CallUnsubscribe (sub_id : string).
#[local] Set Elimination Schemes.

Definition Handler : Type := Event -> list BusCall * Completion unit.

Record Subscription : Type := {
  id : string;
  pattern : string;
  handler : Handler
}.

Definition matches (sub : Subscription) (topic : string) : bool :=
  Fnmatch.fnmatch topic (pattern sub).

(** What a run of the bus does to the outside: the handler calls and the
    [log.error] records ([log.debug] lines are left out). *)
Inductive Effect : Type :=
| Invoked (sub : Subscription) (event : Event)
| LogError (topic : string) (sub_id8 : string) (exc : Exc).

(** The effects of one handler call, whatever the bus it runs on. *)
Definition report (sub : Subscription) (event : Event) : list Effect :=
  match snd (handler sub event) with
  | Returned _ => [Invoked sub event]
  | Raised exc =>
      [Invoked sub event;
       LogError (topic event) (String.substring 0 8 (id sub)) exc]
  end.

Definition invocations (eff : list Effect) : list (Subscription * Event) :=
  omap (fun e => match e with
                 | Invoked sub event => Some (sub, event)
                 | LogError _ _ _ => None
                 end) eff.

Record EventBus : Type := {
  _subs : list Subscription;
  _async : bool;
  _queue : list (Subscription * Event)
}.

Definition __init__ (async_dispatch : bool) : EventBus :=
  {| _subs := []; _async := async_dispatch; _queue := [] |}.

(** [uuid] is the value [str(uuid4())] draws. *)
Definition subscribe (uuid pat : string) (h : Handler) (bus : EventBus)
  : Subscription * EventBus :=
  let sub := {| id := uuid; pattern := pat; handler := h |} in
  (sub, {| _subs := _subs bus ++ [sub]; _async := _async bus;
           _queue := _queue bus |}).

Definition unsubscribe_id (sub_id : string) (bus : EventBus) : EventBus :=
  {| _subs := filter (fun s => id s <> sub_id) (_subs bus);
     _async := _async bus; _queue := _queue bus |}.

Definition unsubscribe (sub : Subscription) (bus : EventBus) : EventBus :=
  unsubscribe_id (id sub) bus.

Definition apply_call (bus : EventBus) (c : BusCall) : EventBus :=
  match c with
  | CallSubscribe uuid pat h => snd (subscribe uuid pat h bus)
  | CallUnsubscribe sub_id => unsubscribe_id sub_id bus
  end.

(** [_invoke]: the handler runs (its calls into the bus take effect), and
    [except Exception] turns a raise into a log record. *)
Definition _invoke (sub : Subscription) (event : Event) (bus : EventBus)
  : EventBus * list Effect * Completion unit :=
  let '(calls, result) := handler sub event in
  let bus' := foldl apply_call bus calls in
  match result with
  | Returned _ => (bus', [Invoked sub event], Returned tt)
  | Raised exc =>
      (bus',
       [Invoked sub event;
        LogError (topic event) (String.substring 0 8 (id sub)) exc],
       Returned tt)
  end.

(** [for sub in matched: self._invoke(sub, event)]: a raise out of the body
    would end the loop and leave [publish]. *)
Fixpoint dispatch (matched : list Subscription) (event : Event)
    (bus : EventBus) : EventBus * list Effect * Completion unit :=
  match matched with
  | [] => (bus, [], Returned tt)
  | sub :: rest =>
      match _invoke sub event bus with
      | (bus1, eff1, Returned _) =>
          let '(bus2, eff2, r) := dispatch rest event bus1 in
          (bus2, eff1 ++ eff2, r)
      | (bus1, eff1, Raised exc) => (bus1, eff1, Raised exc)
      end
  end.

Definition mk_event (now : Z) (topic exchange : string) (data : Payload)
  : Event :=
  {| topic := topic; exchange := exchange; data := data; timestamp := now |}.

Definition snapshot (bus : EventBus) (topic : string) : list Subscription :=
  List.filter (fun s => matches s topic) (_subs bus).

Definition publish (now : Z) (topic exchange : string) (data : Payload)
    (bus : EventBus) : EventBus * list Effect * Completion unit :=
  let event := mk_event now topic exchange data in
  let matched := snapshot bus topic in
  if _async bus then
    ({| _subs := _subs bus; _async := _async bus;
        _queue := _queue bus ++ map (fun sub => (sub, event)) matched |},
     [], Returned tt)
  else dispatch matched event bus.

Definition publish_event (now : Z) (event : Event) (bus : EventBus)
  : EventBus * list Effect * Completion unit :=
  publish now (topic event) (exchange event) (data event) bus.

(** One turn of [_delivery_loop]: [queue.Empty] is [continue]; otherwise the
    pair at the head of the queue is invoked, and a raise out of [_invoke]
    would be logged by the loop's own [except Exception]. *)
Definition _delivery_step (bus : EventBus) : EventBus * list Effect :=
  match _queue bus with
  | [] => (bus, [])
  | (sub, event) :: q =>
      let bus0 := {| _subs := _subs bus; _async := _async bus; _queue := q |} in
      match _invoke sub event bus0 with
      | (bus1, eff, Returned _) => (bus1, eff)
      | (bus1, eff, Raised exc) =>
          (bus1, eff ++ [LogError "delivery loop" "" exc])
      end
  end.

Fixpoint _delivery_loop (turns : nat) (bus : EventBus)
  : EventBus * list Effect :=
  match turns with
  | O => (bus, [])
  | S n =>
      let '(bus1, eff1) := _delivery_step bus in
      let '(bus2, eff2) := _delivery_loop n bus1 in
      (bus2, eff1 ++ eff2)
  end.

(** Sample data: a quiet handler, one that raises, and a synchronous bus
    with a subscription on [odds.*] and one on [odds.alpha]. *)
Definition quiet : Handler := fun _ => ([], Returned tt).
Definition faulty : Handler :=
  fun _ => ([], Raised (Error "RuntimeError" "boom")).

Definition sample_bus : EventBus :=
  {| _subs := [ {| id := "11111111-aaaa"; pattern := "odds.*"; handler := faulty |};
                {| id := "22222222-bbbb"; pattern := "odds.alpha"; handler := quiet |} ];
     _async := false; _queue := [] |}.

End Pubsub.

(** ** [ellis/clients/base.py] and [ellis/auth.py] *)
Module Auth.

(** An [ExchangeClient] as the manager and the feed see it at the time of an
    operation: the answer of [authenticate()], the value of the property
    [is_authenticated], and the result of [get_markets].  When
    [authenticate()] raises, [line] is what [_auth_one] keeps of the
    exception: the last line of [traceback.format_exception_only],
    stripped. *)
Inductive AuthReply : Type :=
| ReplyTrue
| ReplyFalse
| ReplyRaises (line : string).

Record ExchangeClient : Type := {
  authenticate : AuthReply;
  is_authenticated : bool;
  get_markets : list string -> Completion (list Models.Market)
}.

Inductive AuthStatus : Type := PENDING | SUCCESS | FAILED | EXPIRED.

#[global] Instance AuthStatus_eq_dec : EqDecision AuthStatus.
Proof. solve_decision. Defined.

Record AuthResult : Type := {
  exchange : string;
  status : AuthStatus;
  authenticated_at : option Z;
  error : option string
}.

Definition ok (r : AuthResult) : bool := bool_decide (status r = SUCCESS).

Record AuthManager : Type := {
  _clients : gmap string ExchangeClient;
  _token_ttl : Z;
  _max_workers : Z;
  _results : gmap string AuthResult
}.

Definition with_results (m : AuthManager) (res : gmap string AuthResult)
  : AuthManager :=
  {| _clients := _clients m; _token_ttl := _token_ttl m;
     _max_workers := _max_workers m; _results := res |}.

Definition __init__ (clients : gmap string ExchangeClient)
    (token_ttl max_workers : Z) : AuthManager :=
  {| _clients := clients; _token_ttl := token_ttl; _max_workers := max_workers;
     _results :=
       map_imap (fun name _ =>
                   Some {| exchange := name; status := PENDING;
                           authenticated_at := None; error := None |})
                clients |}.

Definition _is_expired (m : AuthManager) (now : Z) (result : AuthResult) : bool :=
  match authenticated_at result with
  | None => false
  | Some t => (now - t >=? _token_ttl m)
  end.

(** [self._results[name]] raises [KeyError] for an unknown name. *)
Definition _needs_auth (m : AuthManager) (now : Z) (name : string)
  : Completion bool :=
  match _results m !! name with
  | None => Raised (KeyError name)
  | Some result =>
      if bool_decide (status result = PENDING) then Returned true
      else if bool_decide (status result = FAILED \/ status result = EXPIRED)
      then Returned true
      else if bool_decide (status result = SUCCESS) && _is_expired m now result
      then Returned true
      else Returned false
  end.

Definition _auth_one (now : Z) (name : string) (client : ExchangeClient)
  : AuthResult :=
  match authenticate client with
  | ReplyTrue =>
      {| exchange := name; status := SUCCESS;
         authenticated_at := Some now; error := None |}
  | ReplyFalse =>
      {| exchange := name; status := FAILED; authenticated_at := None;
         error := Some "authenticate() returned False" |}
  | ReplyRaises exc =>
      {| exchange := name; status := FAILED; authenticated_at := None;
         error := Some exc |}
  end.

(** The dict comprehension of [authenticate_all]: the clients for which
    [force or self._needs_auth(name)] holds; the first [KeyError] ends it. *)
Definition select_targets (m : AuthManager) (force : bool) (now : Z)
  : Completion (gmap string ExchangeClient) :=
  map_fold (fun name client acc =>
              targets ← acc;
              needed ← (if force then Returned true else _needs_auth m now name);
              Returned (if needed : bool then <[name := client]> targets
                        else targets))
           (Returned ∅) (_clients m).

(** What a call of the manager leaves behind: the manager, and the names
    of the clients whose [authenticate()] ran.  The dict a call returns is
    [self._results] itself. *)
Record Outcome : Type := {
  manager : AuthManager;
  invoked : gset string
}.

Definition returned_map (o : Outcome) : gmap string AuthResult :=
  _results (manager o).

(** [ThreadPoolExecutor] refuses [max_workers <= 0]; the futures complete
    in any order, each writing the entry of its own name. *)
Definition authenticate_all (m : AuthManager) (force : bool) (now : Z)
  : Completion Outcome :=
  targets ← select_targets m force now;
  if bool_decide (targets = ∅) then
    Returned {| manager := m; invoked := ∅ |}
  else if bool_decide (Z.min (_max_workers m) (Z.of_nat (size targets)) <= 0)
  then Raised (Error "ValueError" "max_workers must be greater than 0")
  else
    Returned
      {| manager := with_results m (map_imap (fun name client =>
                                                Some (_auth_one now name client))
                                             targets ∪ _results m);
         invoked := dom targets |}.

Definition stale_names (m : AuthManager) (now : Z) : gset string :=
  dom (filter (fun kv =>
                 (status (snd kv) = EXPIRED \/ status (snd kv) = FAILED \/
                  status (snd kv) = PENDING) \/
                 _is_expired m now (snd kv) = true)
              (_results m)).

Definition refresh_expired (m : AuthManager) (now : Z) : Completion Outcome :=
  if bool_decide (stale_names m now = ∅) then
    Returned {| manager := m; invoked := ∅ |}
  else authenticate_all m false now.

Definition _mark_expired (m : AuthManager) (now : Z) : AuthManager :=
  with_results m
    (map_imap (fun name result =>
                 Some (if bool_decide (status result = SUCCESS)
                          && _is_expired m now result
                       then {| exchange := name; status := EXPIRED;
                               authenticated_at := authenticated_at result;
                               error := None |}
                       else result))
              (_results m)).

(** [authenticated_clients]: the sweep, then [self._clients[name]] for every
    record in SUCCESS ([KeyError] for a name without a client). *)
Definition authenticated_clients (m : AuthManager) (now : Z)
  : AuthManager * Completion (gmap string ExchangeClient) :=
  let m' := _mark_expired m now in
  (m',
   map_fold (fun name result acc =>
               ready ← acc;
               if bool_decide (status result = SUCCESS) then
                 match _clients m' !! name with
                 | Some client => Returned (<[name := client]> ready)
                 | None => Raised (KeyError name)
                 end
               else Returned ready)
            (Returned ∅) (_results m')).

Definition status_snapshot (m : AuthManager) (now : Z)
  : AuthManager * gmap string AuthResult :=
  let m' := _mark_expired m now in (m', _results m').

(** The state invariant of the manager: one record per client, and a
    record in SUCCESS carries the time of its authentication.  [__init__]
    establishes it and every operation keeps it. *)
Definition consistent (m : AuthManager) : Prop :=
  dom (_clients m) = dom (_results m) /\
  forall name r, _results m !! name = Some r ->
                 status r = SUCCESS -> is_Some (authenticated_at r).

(** A record is stale when it is not in SUCCESS or has outlived the TTL. *)
Definition stale (m : AuthManager) (now : Z) (r : AuthResult) : bool :=
  negb (bool_decide (status r = SUCCESS)) || _is_expired m now r.

(** The targets of a non-forced call, when every client has a record. *)
Definition due (m : AuthManager) (now : Z) (kv : string * ExchangeClient) : Prop :=
  exists r, _results m !! fst kv = Some r /\ stale m now r = true.

#[global] Instance due_dec m now kv : Decision (due m now kv).
Proof.
  unfold due. destruct (_results m !! fst kv) as [r|] eqn:E.
  - destruct (stale m now r) eqn:S.
    + left. eauto.
    + right. intros (r' & [= <-] & ?). congruence.
  - right. intros (r' & [=] & ?).
Defined.

(** The dict [authenticated_clients] builds from swept records. *)
Definition ready_of (m : AuthManager) : gmap string ExchangeClient :=
  map_imap (fun name result =>
              if bool_decide (status result = SUCCESS)
              then _clients m !! name else None)
           (_results m).

(** Sample data: a manager over one adapter whose session dates from
    tick 0, with a TTL of 3600 ticks. *)
Definition sample_client : ExchangeClient :=
  {| authenticate := ReplyTrue; is_authenticated := false;
     get_markets := fun _ => Returned [] |}.

Definition sample_manager : AuthManager :=
  {| _clients := {["betfair" := sample_client]};
     _token_ttl := 3600; _max_workers := 8;
     _results := {["betfair" := {| exchange := "betfair"; status := SUCCESS;
                                   authenticated_at := Some 0;
                                   error := None |}]} |}.

End Auth.

(** ** [ellis/feed.py] *)
Module Feed.
Import Models.

Inductive Thread : Type := Alive | Finished.

Record OddsFeed : Type := {
  name : string;
  _event_type_ids : list string;
  _currency : string;
  _poll_interval : Z;
  _stop_event : bool;
  _thread : option Thread;
  _poll_count : Z;
  _last_poll : option Z
}.

(** A call [self._bus.publish(topic, exchange=..., data=...)].  The bus
    returns from every such call, so a feed is described by the calls it
    makes, in order. *)
Record Publication : Type := {
  topic : string;
  exchange : string;
  data : Pubsub.Payload
}.

Definition odds_topic (n : string) : string := "odds." +:+ n.
Definition started_topic (n : string) : string := "feed.started." +:+ n.
Definition stopped_topic (n : string) : string := "feed.stopped." +:+ n.
Definition error_topic (n : string) : string := "feed.error." +:+ n.

Definition odds_pub (n : string) (markets : list Market) : Publication :=
  {| topic := odds_topic n; exchange := n; data := Pubsub.MarketList markets |}.
Definition started_pub (n : string) : Publication :=
  {| topic := started_topic n; exchange := n; data := Pubsub.NoData |}.
Definition stopped_pub (n : string) : Publication :=
  {| topic := stopped_topic n; exchange := n; data := Pubsub.NoData |}.
Definition error_pub (n : string) (text : string) : Publication :=
  {| topic := error_topic n; exchange := n; data := Pubsub.ErrorDict text |}.

Definition set_stop (feed : OddsFeed) (flag : bool) : OddsFeed :=
  {| name := name feed; _event_type_ids := _event_type_ids feed;
     _currency := _currency feed; _poll_interval := _poll_interval feed;
     _stop_event := flag; _thread := _thread feed;
     _poll_count := _poll_count feed; _last_poll := _last_poll feed |}.

Definition set_thread (feed : OddsFeed) (t : option Thread) : OddsFeed :=
  {| name := name feed; _event_type_ids := _event_type_ids feed;
     _currency := _currency feed; _poll_interval := _poll_interval feed;
     _stop_event := _stop_event feed; _thread := t;
     _poll_count := _poll_count feed; _last_poll := _last_poll feed |}.

Definition is_running (feed : OddsFeed) : bool :=
  match _thread feed with Some Alive => true | _ => false end.

(** [start]: a second [start] on a live worker only warns; otherwise the
    stop event is cleared and a worker is launched on [_loop]. *)
Definition start (feed : OddsFeed) : OddsFeed * bool :=
  if is_running feed then (feed, false)
  else (set_thread (set_stop feed false) (Some Alive), true).

(** [stop]: [joined] tells whether the worker ended within the timeout of
    [join]. *)
Definition stop (joined : bool) (feed : OddsFeed)
  : OddsFeed * list Publication :=
  let thread :=
    match _thread feed with
    | Some Alive => if joined then Some Finished else Some Alive
    | t => t
    end in
  (set_thread (set_stop feed true) thread, [stopped_pub (name feed)]).

Definition stamp_outcome (currency : string) (o : Outcome) : Outcome :=
  {| outcome_name := outcome_name o; odds := odds o;
     outcome_exchange := outcome_exchange o; outcome_currency := currency |}.

Definition stamp (currency : string) (mk : Market) : Market :=
  {| market_id := market_id mk; market_name := market_name mk;
     event_name := event_name mk; market_exchange := market_exchange mk;
     market_currency := currency;
     outcomes := map (stamp_outcome currency) (outcomes mk) |}.

(** [f"{x}"] of an optional string. *)
Definition fmt (x : option string) : string := default "None" x.

Record PollOut : Type := {
  poll_feed : OddsFeed;
  poll_auth : Auth.AuthManager;
  poll_published : list Publication;
  poll_result : Completion unit
}.

(** The session check at the head of [_poll]. *)
Definition ensure_session (now : Z) (client : Auth.ExchangeClient)
    (feed : OddsFeed) (auth : Auth.AuthManager)
  : Auth.AuthManager * Completion unit :=
  if Auth.is_authenticated client then (auth, Returned tt)
  else
    match Auth.refresh_expired auth now with
    | Raised exc => (auth, Raised exc)
    | Returned o =>
        (Auth.manager o,
         match Auth.returned_map o !! name feed with
         | None => Raised (KeyError (name feed))
         | Some r =>
             if Auth.ok r then Returned tt
             else Raised (Error "RuntimeError"
                            ("re-auth failed: " +:+ fmt (Auth.error r)))
         end)
    end.

Definition _poll (now : Z) (client : Auth.ExchangeClient)
    (feed : OddsFeed) (auth : Auth.AuthManager) : PollOut :=
  let '(auth1, session) := ensure_session now client feed auth in
  match session with
  | Raised exc =>
      {| poll_feed := feed; poll_auth := auth1; poll_published := [];
         poll_result := Raised exc |}
  | Returned _ =>
      match Auth.get_markets client (_event_type_ids feed) with
      | Raised exc =>
          {| poll_feed := feed; poll_auth := auth1; poll_published := [];
             poll_result := Raised exc |}
      | Returned markets =>
          let stamped := map (stamp (_currency feed)) markets in
          {| poll_feed :=
               {| name := name feed; _event_type_ids := _event_type_ids feed;
                  _currency := _currency feed;
                  _poll_interval := _poll_interval feed;
                  _stop_event := _stop_event feed; _thread := _thread feed;
                  _poll_count := _poll_count feed + 1;
                  _last_poll := Some now |};
             poll_auth := auth1;
             poll_published := [odds_pub (name feed) stamped];
             poll_result := Returned tt |}
      end
  end.

(** What one turn of the worker meets: the clock, the state of the feed's
    own adapter and of the other adapters of the manager, and whether
    [stop()] has been called by the end of the wait. *)
Record Cycle : Type := {
  clock : Z;
  client : Auth.ExchangeClient;
  peers : gmap string Auth.ExchangeClient;
  stop_requested : bool
}.

Definition adapters (feed : OddsFeed) (c : Cycle) (auth : Auth.AuthManager)
  : Auth.AuthManager :=
  {| Auth._clients := <[name feed := client c]> (peers c);
     Auth._token_ttl := Auth._token_ttl auth;
     Auth._max_workers := Auth._max_workers auth;
     Auth._results := Auth._results auth |}.

Record CycleOut : Type := {
  cycle_feed : OddsFeed;
  cycle_auth : Auth.AuthManager;
  cycle_published : list Publication;
  cycle_polled : Completion unit;
  cycle_first_run : bool
}.

Section WithRepr.
Context {py_repr : PyRepr}.

(** The body of the [while] of [_loop], up to and including the wait; the
    payload of [feed.error.<source>] is [{"error": str(exc)}]. *)
Definition cycle (first_run : bool) (c : Cycle)
    (feed : OddsFeed) (auth : Auth.AuthManager) : CycleOut :=
  let p := _poll (clock c) (client c) feed (adapters feed c auth) in
  let waited :=
    set_stop (poll_feed p) (_stop_event (poll_feed p) || stop_requested c) in
  match poll_result p with
  | Returned _ =>
      {| cycle_feed := waited; cycle_auth := poll_auth p;
         cycle_published :=
           poll_published p ++
           (if first_run then [started_pub (name feed)] else []);
         cycle_polled := poll_result p;
         cycle_first_run := false |}
  | Raised exc =>
      {| cycle_feed := waited; cycle_auth := poll_auth p;
         cycle_published :=
           poll_published p ++ [error_pub (name feed) (str exc)];
         cycle_polled := poll_result p;
         cycle_first_run := first_run |}
  end.

(** [_loop]: the turns the worker makes before it finds the stop event
    set; [cycles] is what the world answers, turn by turn. *)
Fixpoint loop_from (first_run : bool) (cycles : list Cycle)
    (feed : OddsFeed) (auth : Auth.AuthManager)
  : OddsFeed * Auth.AuthManager * list Publication :=
  match cycles with
  | [] => (feed, auth, [])
  | c :: rest =>
      if _stop_event feed then (feed, auth, [])
      else
        let o := cycle first_run c feed auth in
        let '(feed', auth', pubs) :=
          loop_from (cycle_first_run o) rest (cycle_feed o) (cycle_auth o) in
        (feed', auth', cycle_published o ++ pubs)
  end.

Definition _loop := loop_from true.

(** A [start()]-to-[stop()] episode whose [stop()] finds the worker done:
    the publications of the worker, then the one of [stop]. *)
Definition episode (cycles : list Cycle)
    (feed : OddsFeed) (auth : Auth.AuthManager) : list Publication :=
  let '(feed0, launched) := start feed in
  let '(feed1, _, pubs) :=
    if launched then _loop cycles feed0 auth else (feed0, auth, []) in
  pubs ++ snd (stop true feed1).

End WithRepr.

(** Two calls of [stop] in a row: the state they leave and all they
    publish. *)
Definition stop_twice (joined1 joined2 : bool) (feed : OddsFeed)
  : OddsFeed * list Publication :=
  let '(feed1, pubs1) := stop joined1 feed in
  let '(feed2, pubs2) := stop joined2 feed1 in
  (feed2, pubs1 ++ pubs2).

(** Idempotence of [stop()] as the specification words it, on one feed: a
    second call changes neither the state nor what has been published. *)
Definition stop_idempotent (joined1 joined2 : bool) (feed : OddsFeed) : Prop :=
  stop_twice joined1 joined2 feed = stop joined1 feed.

(** A feed that has never been started. *)
Definition fresh_feed (n : string) : OddsFeed :=
  {| name := n; _event_type_ids := ["1"]; _currency := "USD";
     _poll_interval := 30; _stop_event := false; _thread := None;
     _poll_count := 0; _last_poll := None |}.

(** Every [feed.started] publication of a trace comes after an [odds]
    publication of the same trace. *)
Definition started_after_odds (S : string) (pubs : list Publication) : Prop :=
  forall pre p post,
    pubs = pre ++ p :: post -> topic p = started_topic S ->
    exists q, q ∈ pre /\ topic q = odds_topic S.

Definition count_started (S : string) (pubs : list Publication) : nat :=
  length (filter (fun p => topic p = started_topic S) pubs).

End Feed.

(** ** [alf/src/classifieds/storage.py] *)
Module Storage.

(** A JSON value, as far as [r.get("id")], the set of ids and the test
    [l.id not in existing_ids] tell values apart: [JNumber z] is the
    integer [z], or the float or boolean that [==] and [hash] do not tell
    from it; [JOther] holds the text of any other value that has a hash;
    [JArray] and [JObject] hold the text of a value that has none. *)
Inductive JValue : Type :=
| JNull
| JString (s : string)
| JNumber (z : Z)
| JOther (text : string)
| JArray (text : string)
| JObject (text : string).

#[global] Instance JValue_eq_dec : EqDecision JValue.
Proof. solve_decision. Defined.

#[global] Instance JValue_countable : Countable JValue.
Proof.
  refine (inj_countable'
    (fun v => match v with
              | JNull => inl (inl tt)
              | JString s => inl (inr s)
              | JNumber z => inr (inl z)
              | JOther t => inr (inr (inl t))
              | JArray t => inr (inr (inr (inl t)))
              | JObject t => inr (inr (inr (inr t)))
              end)
    (fun x => match x with
              | inl (inl _) => JNull
              | inl (inr s) => JString s
              | inr (inl z) => JNumber z
              | inr (inr (inl t)) => JOther t
              | inr (inr (inr (inl t))) => JArray t
              | inr (inr (inr (inr t))) => JObject t
              end) _).
  intros []; reflexivity.
Defined.

Definition hashable (v : JValue) : bool :=
  match v with
  | JArray _ | JObject _ => false
  | _ => true
  end.

(** A stored record: a JSON object. *)
Abbreviation Dict := (gmap string JValue).

(** [r.get("id")]: [None] for a missing key. *)
Definition get_id (r : Dict) : JValue := default JNull (r !! "id").

(** Modelled from the spec: [ClassifiedListing] of [src/classifieds/models.py],
    which is not among the sources.  A record carries a stable identity key
    (a string, [id]), a destination key ([storage_path_parts]: manufacturer,
    model, date) and further payload fields; [to_dict] renders it as the
    JSON object that is stored, the identity key under ["id"]. *)
Record ClassifiedListing : Type := {
  id : string;
  storage_path_parts : string * string * string;
  payload : Dict
}.

Definition to_dict (l : ClassifiedListing) : Dict :=
  <["id" := JString (id l)]> (payload l).

(** A [pathlib] path on a POSIX host is the tuple of its parts, the root
    (["/"], or ["//"] for exactly two leading slashes) first when the path
    is absolute. *)
Abbreviation Path := (list string).

Definition root (s : list ascii) : Path :=
  match s with
  | "/"%char :: "/"%char :: "/"%char :: _ => ["/"]
  | "/"%char :: "/"%char :: _ => ["//"]
  | "/"%char :: _ => ["/"]
  | _ => []
  end.

(** [s.split("/")] *)
Fixpoint split_slash (s : list ascii) : list (list ascii) :=
  match s with
  | [] => [[]]
  | c :: rest =>
      if Ascii.eqb c "/" then [] :: split_slash rest
      else match split_slash rest with
           | seg :: segs => (c :: seg) :: segs
           | [] => [[c]]
           end
  end.

(** The parts of one argument, its root apart: empty segments and [.] are
    dropped. *)
Definition segments (s : string) : Path :=
  filter (fun x => x <> "" /\ x <> ".")
         (string_of_list_ascii <$> split_slash (list_ascii_of_string s)).

(** [p / arg]: an absolute argument replaces what is before it. *)
Definition joinpath (p : Path) (arg : string) : Path :=
  match root (list_ascii_of_string arg) with
  | [] => p ++ segments arg
  | r => r ++ segments arg
  end.

(** [Path(data_dir)] *)
Definition __init__ (data_dir : string) : Path := joinpath [] data_dir.

Definition parent (p : Path) : Path := removelast p.

(** [PurePath.with_suffix]: the last dot of the final segment starts its
    suffix, unless it is the first or the last character. *)
Fixpoint split_suffix (name : list ascii) : option (list ascii * list ascii) :=
  match name with
  | [] => None
  | c :: rest =>
      match split_suffix rest with
      | Some (stem, suffix) => Some (c :: stem, suffix)
      | None => if Ascii.eqb c "." then Some ([], rest) else None
      end
  end.

Definition stem (name : string) : string :=
  match split_suffix (list_ascii_of_string name) with
  | Some (c :: st, _ :: _) => string_of_list_ascii (c :: st)
  | _ => name
  end.

Definition with_suffix (p : Path) (suffix : string) : Path :=
  match last p with
  | Some name => removelast p ++ [stem name +:+ suffix]
  | None => p
  end.

(** What [open] and [json.load] make of a destination file:
    - [Records]: an array of objects;
    - [Malformed]: a value of another shape.  When iterating over it
      yields nothing ([{}] or [""], [empty_iter]) [exc] is the [TypeError]
      of [existing + new_dicts]; otherwise (a number, a non-empty string or
      object, an array with an element that is not an object) [exc] is
      what the set comprehension raises;
    - [Unreadable]: [exc] is raised; it is [caught] by the inner handler
      when it is a [JSONDecodeError] or an [OSError], and not when it is
      another exception, such as the [UnicodeDecodeError] of a file that is
      not UTF-8. *)
Inductive FileContent : Type :=
| Records (rows : list Dict)
| Malformed (empty_iter : bool) (exc : Exc)
| Unreadable (caught : bool) (exc : Exc).

(** The destination files and the directories.  Paths that differ as
    [pathlib] paths are different files; the lock files of [filelock] are
    not part of the disk. *)
Record Disk : Type := {
  files : gmap Path FileContent;
  dirs : gset Path
}.

(** The outcome of [filelock.FileLock(lock_path, timeout=10)], per lock
    file, for the duration of a call: the lock, [filelock.Timeout], or
    another exception. *)
Inductive LockReply : Type :=
| Acquired
| Timeout
| LockRaises (exc : Exc).

(** The outcome of [mkdir(parents=True, exist_ok=True)], per directory:
    when it raises, [made] of the directories it had to make are there. *)
Inductive MkdirReply : Type :=
| MkdirOk
| MkdirRaises (exc : Exc) (made : nat).

(** The outcome of [open(path, "w")] and [json.dump], per file: [open] may
    raise, which leaves the file as it was; [json.dump] may raise after
    [open] has truncated the file, which leaves a part of the text, that
    [json.load] will reject with [residue], [caught] or not by the inner
    handler of [_merge_and_write]. *)
Inductive WriteReply : Type :=
| Written
| OpenRaises (exc : Exc)
| DumpRaises (exc : Exc) (caught : bool) (residue : Exc).

Inductive FsEffect : Type :=
| Lock (lock_path : Path)
| LockTimedOut (lock_path : Path)
| LockFailed (lock_path : Path)
| Unlock (lock_path : Path)
| Mkdir (dir : Path)
| Exists (path : Path)
| Read (path : Path)
| Write (path : Path) (rows : list Dict)
| WriteFailed (path : Path).

Section Store.
Variable _data_dir : Path.
Variable locks : Path -> LockReply.
Variable mkdirs : Path -> MkdirReply.
Variable writes : Path -> WriteReply.

Definition _resolve_path (listing : ClassifiedListing) : Path :=
  let '(mfr, mdl, date) := storage_path_parts listing in
  foldl joinpath _data_dir ["classifieds"; mfr; mdl; date; "listings.json"].

(** [path.parent.mkdir(parents=True, exist_ok=True)]: the directory and
    those above it, from the top. *)
Fixpoint ancestors (dir : Path) : list Path :=
  match dir with
  | [] => []
  | seg :: rest => [seg] :: map (cons seg) (ancestors rest)
  end.

Definition mkdir_parents (made : list Path) (disk : Disk) : Disk :=
  {| files := files disk; dirs := dirs disk ∪ list_to_set made |}.

(** [{r.get("id") for r in existing}]: an id without a hash raises
    [TypeError]. *)
Definition existing_ids (existing : list Dict) : Completion (gset JValue) :=
  match filter (fun v => hashable v = false) (get_id <$> existing) with
  | [] => Returned (list_to_set (get_id <$> existing))
  | JObject _ :: _ => Raised (Error "TypeError" "unhashable type: 'dict'")
  | _ :: _ => Raised (Error "TypeError" "unhashable type: 'list'")
  end.

(** The second half of [_merge_and_write], from [existing_ids] on. *)
Definition merge (path : Path) (existing : list Dict)
    (listings : list ClassifiedListing) (disk : Disk)
  : Disk * list FsEffect * Completion nat :=
  match existing_ids existing with
  | Raised exc => (disk, [], Raised exc)
  | Returned ids =>
      let new_dicts :=
        to_dict <$> filter (fun l => JString (id l) ∉ ids) listings in
      match new_dicts with
      | [] => (disk, [], Returned 0%nat)
      | _ :: _ =>
          let merged := existing ++ new_dicts in
          match writes path with
          | Written =>
              ({| files := <[path := Records merged]> (files disk);
                  dirs := dirs disk |},
               [Write path merged], Returned (length new_dicts))
          | OpenRaises exc => (disk, [WriteFailed path], Raised exc)
          | DumpRaises exc caught residue =>
              ({| files := <[path := Unreadable caught residue]> (files disk);
                  dirs := dirs disk |},
               [WriteFailed path], Raised exc)
          end
      end
  end.

Definition _merge_and_write (path : Path) (listings : list ClassifiedListing)
    (disk : Disk) : Disk * list FsEffect * Completion nat :=
  let dir := parent path in
  match mkdirs dir with
  | MkdirRaises exc made =>
      (mkdir_parents (take made (ancestors dir)) disk, [Mkdir dir], Raised exc)
  | MkdirOk =>
      let disk1 := mkdir_parents (ancestors dir) disk in
      let probe := [Mkdir dir; Exists path] in
      match files disk !! path with
      | None =>
          let '(disk2, eff, r) := merge path [] listings disk1 in
          (disk2, probe ++ eff, r)
      | Some (Records rows) =>
          let '(disk2, eff, r) := merge path rows listings disk1 in
          (disk2, probe ++ [Read path] ++ eff, r)
      | Some (Unreadable true _) =>
          let '(disk2, eff, r) := merge path [] listings disk1 in
          (disk2, probe ++ [Read path] ++ eff, r)
      | Some (Unreadable false exc) =>
          (disk1, probe ++ [Read path], Raised exc)
      | Some (Malformed true exc) =>
          match listings with
          | [] => (disk1, probe ++ [Read path], Returned 0%nat)
          | _ :: _ => (disk1, probe ++ [Read path], Raised exc)
          end
      | Some (Malformed false exc) =>
          (disk1, probe ++ [Read path], Raised exc)
      end
  end.

Definition _write_group (path : Path) (listings : list ClassifiedListing)
    (disk : Disk) : Disk * list FsEffect * nat :=
  let lock_path := with_suffix path ".lock" in
  match locks lock_path with
  | Timeout => (disk, [LockTimedOut lock_path], 0%nat)
  | LockRaises _ => (disk, [LockFailed lock_path], 0%nat)
  | Acquired =>
      let '(disk', eff, r) := _merge_and_write path listings disk in
      (disk', [Lock lock_path] ++ eff ++ [Unlock lock_path],
       match r with Returned n => n | Raised _ => 0%nat end)
  end.

(** [groups.setdefault(path, []).append(listing)] on a dict that keeps the
    order in which its keys came. *)
Fixpoint setdefault_append (path : Path) (listing : ClassifiedListing)
    (groups : list (Path * list ClassifiedListing))
  : list (Path * list ClassifiedListing) :=
  match groups with
  | [] => [(path, [listing])]
  | (p, group) :: rest =>
      if decide (p = path) then (p, group ++ [listing]) :: rest
      else (p, group) :: setdefault_append path listing rest
  end.

Definition group_by_path (listings : list ClassifiedListing)
  : list (Path * list ClassifiedListing) :=
  foldl (fun groups l => setdefault_append (_resolve_path l) l groups)
        [] listings.

Fixpoint write_groups (groups : list (Path * list ClassifiedListing))
    (disk : Disk) : Disk * list FsEffect * nat :=
  match groups with
  | [] => (disk, [], 0%nat)
  | (path, group) :: rest =>
      let '(disk1, eff1, n1) := _write_group path group disk in
      let '(disk2, eff2, n2) := write_groups rest disk1 in
      (disk2, eff1 ++ eff2, (n1 + n2)%nat)
  end.

Definition save (listings : list ClassifiedListing) (disk : Disk)
  : Disk * list FsEffect * nat :=
  match listings with
  | [] => (disk, [], 0%nat)
  | _ :: _ => write_groups (group_by_path listings) disk
  end.

(** The records of a destination file, and their identity keys. *)
Definition stored (disk : Disk) (D : Path) : list Dict :=
  match files disk !! D with
  | Some (Records rows) => rows
  | _ => []
  end.

Definition keys_in (disk : Disk) (D : Path) : list JValue :=
  get_id <$> stored disk D.

(** The records of a batch that are routed to [D]. *)
Definition routed (D : Path) (listings : list ClassifiedListing)
  : list ClassifiedListing :=
  filter (fun l => _resolve_path l = D) listings.

(** The group filed under [D], if any. *)
Fixpoint lookup_group (D : Path) (groups : list (Path * list ClassifiedListing))
  : option (list ClassifiedListing) :=
  match groups with
  | [] => None
  | (p, group) :: rest =>
      if decide (p = D) then Some group else lookup_group D rest
  end.

Definition bucket (D : Path) (groups : list (Path * list ClassifiedListing))
  : list ClassifiedListing :=
  default [] (lookup_group D groups).




End Store.

(** Sample data: listings of one model and day, the file they go to under
    the data directory [data], and replies of a file system at rest. *)
Definition sample (i : string) : ClassifiedListing :=
  {| id := i; storage_path_parts := ("Ford", "Focus", "2024-05-01");
     payload := {["price" := JNumber 9500]} |}.

Definition sample_path : Path :=
  ["data"; "classifieds"; "Ford"; "Focus"; "2024-05-01"; "listings.json"].

Definition empty_disk : Disk := {| files := ∅; dirs := ∅ |}.

Definition free : Path -> LockReply := fun _ => Acquired.
Definition makes : Path -> MkdirReply := fun _ => MkdirOk.
Definition stores : Path -> WriteReply := fun _ => Written.


End Storage.

(** ** The lock discipline of [ClassifiedStorage], as a check on a trace *)
Module LockDiscipline.
Import Storage.

(** [held] is the lock file currently held.  Outside a lock only an attempt
    to lock is allowed; under the lock of a destination only the creation
    of its directory, the probe, the read and the write of that
    destination, and the release of that lock. *)
Fixpoint well_locked (held : option Path) (eff : list FsEffect) : bool :=
  match eff with
  | [] => match held with None => true | Some _ => false end
  | e :: rest =>
      match held, e with
      | None, Lock lp => well_locked (Some lp) rest
      | None, LockTimedOut _ => well_locked None rest
      | None, LockFailed _ => well_locked None rest
      | Some lp, Unlock lp' =>
          bool_decide (lp' = lp) && well_locked None rest
      | Some lp, Mkdir dir =>
          bool_decide (dir = parent lp) && well_locked held rest
      | Some lp, Exists p =>
          bool_decide (with_suffix p ".lock" = lp) && well_locked held rest
      | Some lp, Read p =>
          bool_decide (with_suffix p ".lock" = lp) && well_locked held rest
      | Some lp, Write p _ =>
          bool_decide (with_suffix p ".lock" = lp) && well_locked held rest
      | Some lp, WriteFailed p =>
          bool_decide (with_suffix p ".lock" = lp) && well_locked held rest
      | _, _ => false
      end
  end.

End LockDiscipline.

(** ** [FeedManager] of [ellis/feed.py] *)
Module Manager.
Import Feed.

(** [OddsFeed.__init__] *)
Definition new_feed (n : string) (event_type_ids : list string)
    (currency : string) (poll_interval : Z) : OddsFeed :=
  {| name := n; _event_type_ids := event_type_ids; _currency := currency;
     _poll_interval := poll_interval; _stop_event := false; _thread := None;
     _poll_count := 0; _last_poll := None |}.

(** [_feeds] is a dict in the order of the clients it was built from. *)
Record FeedManager : Type := {
  _feeds : list (string * OddsFeed)
}.

Definition __init__ (clients : list (string * Auth.ExchangeClient))
    (event_type_ids : list string) (currencies : gmap string string)
    (poll_interval : Z) : FeedManager :=
  {| _feeds :=
       map (fun nc =>
              (fst nc,
               new_feed (fst nc) event_type_ids
                        (default "USD" (currencies !! fst nc)) poll_interval))
           clients |}.

Definition start_all (fm : FeedManager) : FeedManager :=
  {| _feeds := map (fun nf => (fst nf, fst (start (snd nf)))) (_feeds fm) |}.

(** [joined] tells, per feed, whether its worker ended within the timeout
    of the join. *)
Fixpoint stop_each (joined : string -> bool) (feeds : list (string * OddsFeed))
  : list (string * OddsFeed) * list Publication :=
  match feeds with
  | [] => ([], [])
  | (n, feed) :: rest =>
      let '(feed', pubs) := stop (joined n) feed in
      let '(rest', pubs') := stop_each joined rest in
      ((n, feed') :: rest', pubs ++ pubs')
  end.

Definition stop_all (joined : string -> bool) (fm : FeedManager)
  : FeedManager * list Publication :=
  let '(feeds, pubs) := stop_each joined (_feeds fm) in
  ({| _feeds := feeds |}, pubs).

Definition status (fm : FeedManager) : list (string * bool) :=
  map (fun nf => (fst nf, is_running (snd nf))) (_feeds fm).

End Manager.

(** ** [alf/src/scheduler.py]

    [HarvestClient] is not among the sources: what [self._client.run()]
    answers is given with each batch. *)
Module Scheduler.

Abbreviation Stats := (gmap string Z).

Record Scheduler : Type := {
  _interval : Z;
  _stop : bool;
  _batch_count : Z
}.

(** [batch_interval_secs or settings.get("batch_interval_seconds", 300)] *)
Definition __init__ (batch_interval_secs : option Z) (settings : gmap string Z)
  : Scheduler :=
  let configured := default 300 (settings !! "batch_interval_seconds") in
  {| _interval :=
       match batch_interval_secs with
       | Some n => if bool_decide (n = 0) then configured else n
       | None => configured
       end;
     _stop := false; _batch_count := 0 |}.

Inductive Event : Type :=
| BatchStarting (n : Z)
| BatchComplete (n fetched written failed : Z)
| SchedulerStarting (interval : Z)
| Sleeping (interval : Z)
| Slept (seconds : nat)
| SchedulerStopped (batches : Z).

Definition set_stop (s : Scheduler) (flag : bool) : Scheduler :=
  {| _interval := _interval s; _stop := flag; _batch_count := _batch_count s |}.

Definition _handle_shutdown (s : Scheduler) : Scheduler := set_stop s true.

(** [stats[key]] *)
Definition item (stats : Stats) (key : string) : Completion Z :=
  match stats !! key with
  | Some v => Returned v
  | None => Raised (KeyError key)
  end.

(** The stats of a batch that went well, for the examples. *)
Definition full_stats : Stats :=
  {["records_fetched" := 10; "records_written" := 7; "sites_failed" := 0]}.

Definition run_once (reply : Completion Stats) (s : Scheduler)
  : Scheduler * list Event * Completion Stats :=
  let starting := BatchStarting (_batch_count s + 1) in
  match reply with
  | Raised exc => (s, [starting], Raised exc)
  | Returned stats =>
      let s' := {| _interval := _interval s; _stop := _stop s;
                   _batch_count := _batch_count s + 1 |} in
      match
        (fetched ← item stats "records_fetched";
         written ← item stats "records_written";
         failed ← item stats "sites_failed";
         Returned (BatchComplete (_batch_count s') fetched written failed))
      with
      | Returned line => (s', [starting; line], Returned stats)
      | Raised exc => (s', [starting], Raised exc)
      end
  end.

(** [for _ in range(self._interval): if self._stop: break; time.sleep(1)];
    [signal] is the number of whole seconds of this sleep after which the
    signal handler runs, if it does.  The result is the number of calls of
    [time.sleep(1)]. *)
Definition stop_seen (elapsed : nat) (signal : option nat) : bool :=
  match signal with
  | Some k => (k <=? elapsed)%nat
  | None => false
  end.

Fixpoint sleep_loop (remaining elapsed : nat) (signal : option nat) : nat :=
  match remaining with
  | O => elapsed
  | S r =>
      if stop_seen elapsed signal then elapsed
      else sleep_loop r (S elapsed) signal
  end.

(** What one turn of [run_forever] meets. *)
Record Turn : Type := {
  reply : Completion Stats;
  signal_in_batch : bool;
  signal_in_sleep : option nat
}.

Inductive Exit : Type :=
| Left                       (* the [while] was left                      *)
| Running                    (* the turns given are used up               *)
| Died (exc : Exc).          (* an exception left [run_forever]           *)

Fixpoint batches (turns : list Turn) (s : Scheduler)
  : Scheduler * list Event * Exit :=
  match turns with
  | [] =>
      if _stop s then (s, [SchedulerStopped (_batch_count s)], Left)
      else (s, [], Running)
  | t :: rest =>
      if _stop s then (s, [SchedulerStopped (_batch_count s)], Left)
      else
        let '(s0, ev, r) := run_once (reply t) s in
        let s1 := set_stop s0 (_stop s0 || signal_in_batch t) in
        match r with
        | Raised exc => (s1, ev, Died exc)
        | Returned _ =>
            if _stop s1
            then (s1, ev ++ [SchedulerStopped (_batch_count s1)], Left)
            else
              let n := Z.to_nat (_interval s1) in
              let slept := sleep_loop n 0 (signal_in_sleep t) in
              let s2 := set_stop s1 (stop_seen n (signal_in_sleep t)) in
              let '(s3, ev3, x) := batches rest s2 in
              (s3, ev ++ [Sleeping (_interval s1); Slept slept] ++ ev3, x)
        end
  end.

Definition run_forever (turns : list Turn) (s : Scheduler)
  : Scheduler * list Event * Exit :=
  let '(s', ev, x) := batches turns s in
  (s', SchedulerStarting (_interval s) :: ev, x).

End Scheduler.

(** ** [OddsListener] of [ellis/comparator.py]

    [compare_markets] and the callback [on_comparison] compute on floats;
    they are taken as given, with the exceptions they may raise. *)
Module Listener.

Section WithComparator.
Variable Comparison : Type.
Variable compare_markets :
  Z -> gmap string Pubsub.Payload -> Completion (list Comparison).
Variable on_comparison : list Comparison -> Completion unit.

Record OddsListener : Type := {
  _min_exchanges : Z;
  _snapshots : gmap string Pubsub.Payload;
  _sub : option Pubsub.Subscription;
  _comparison_count : Z;
  _last_run : option Z
}.

Definition __init__ (min_exchanges : Z) : OddsListener :=
  {| _min_exchanges := min_exchanges; _snapshots := ∅; _sub := None;
     _comparison_count := 0; _last_run := None |}.

Inductive Effect : Type :=
| Called (comparisons : list Comparison)   (* [self._on_comparison(...)]   *)
| LogException (exc : Exc).                (* [log.exception(...)]          *)

(** [event.data or []] *)
Definition or_empty (data : Pubsub.Payload) : Pubsub.Payload :=
  match data with
  | Pubsub.NoData => Pubsub.MarketList []
  | other => other
  end.

Definition _run_comparison (now : Z)
    (markets_by_exchange : gmap string Pubsub.Payload) (l : OddsListener)
  : OddsListener * list Effect :=
  match compare_markets now markets_by_exchange with
  | Raised exc => (l, [LogException exc])
  | Returned comparisons =>
      let l' := {| _min_exchanges := _min_exchanges l;
                   _snapshots := _snapshots l; _sub := _sub l;
                   _comparison_count := _comparison_count l + 1;
                   _last_run := Some now |} in
      match on_comparison comparisons with
      | Returned _ => (l', [Called comparisons])
      | Raised exc => (l', [Called comparisons; LogException exc])
      end
  end.

Definition _handle_odds_event (now : Z) (event : Pubsub.Event)
    (l : OddsListener) : OddsListener * list Effect :=
  let markets := or_empty (Pubsub.data event) in
  let l1 := {| _min_exchanges := _min_exchanges l;
               _snapshots := <[Pubsub.exchange event := markets]> (_snapshots l);
               _sub := _sub l; _comparison_count := _comparison_count l;
               _last_run := _last_run l |} in
  let snapshot_copy := _snapshots l1 in
  if bool_decide (Z.of_nat (size snapshot_copy) < _min_exchanges l) then (l1, [])
  else _run_comparison now snapshot_copy l1.

(** The handler called on a run of events, each at its time. *)
Fixpoint handle_all (events : list (Z * Pubsub.Event)) (l : OddsListener)
  : OddsListener * list Effect :=
  match events with
  | [] => (l, [])
  | (now, event) :: rest =>
      let '(l1, eff1) := _handle_odds_event now event l in
      let '(l2, eff2) := handle_all rest l1 in
      (l2, eff1 ++ eff2)
  end.

(** [start] and [stop], on the bus; [uuid] is the id the bus draws and
    [h] stands for the bound method [self._handle_odds_event]. *)
Definition start (uuid : string) (h : Pubsub.Handler)
    (l : OddsListener) (bus : Pubsub.EventBus)
  : OddsListener * Pubsub.EventBus :=
  let '(sub, bus') := Pubsub.subscribe uuid "odds.*" h bus in
  ({| _min_exchanges := _min_exchanges l; _snapshots := _snapshots l;
      _sub := Some sub; _comparison_count := _comparison_count l;
      _last_run := _last_run l |}, bus').

Definition stop (l : OddsListener) (bus : Pubsub.EventBus)
  : OddsListener * Pubsub.EventBus :=
  match _sub l with
  | Some sub =>
      ({| _min_exchanges := _min_exchanges l; _snapshots := _snapshots l;
          _sub := None; _comparison_count := _comparison_count l;
          _last_run := _last_run l |},
       Pubsub.unsubscribe sub bus)
  | None => (l, bus)
  end.

End WithComparator.

End Listener.

(** ** [ExchangeRates] of [ellis/exchange_rates.py]

    Rates are numbers carried through unchanged; what the HTTP fetch makes
    of the response (the inverted, rounded rates) or the exception it ends
    with is given with the call. *)
Module Rates.

Record ExchangeRates : Type := {
  _rates : gmap string Q;
  _fetched_at : Z
}.

Definition __init__ : ExchangeRates := {| _rates := ∅; _fetched_at := 0 |}.

Definition _CACHE_TTL_SECONDS : Z := 300.

Inductive FetchReply : Type :=
| Fetched (rates : gmap string Q)
| FetchFailed (exc : Exc).

Inductive Effect : Type := HttpGet.

(** [_fetch_frankfurter] and [_fetch_oxr]: on failure the exception is
    swallowed when there are rates to fall back on. *)
Definition _fetch (now : Z) (reply : FetchReply) (fx : ExchangeRates)
  : ExchangeRates * list Effect * Completion unit :=
  match reply with
  | Fetched rates =>
      ({| _rates := rates; _fetched_at := now |}, [HttpGet], Returned tt)
  | FetchFailed exc =>
      if bool_decide (_rates fx = ∅) then (fx, [HttpGet], Raised exc)
      else (fx, [HttpGet], Returned tt)
  end.

Definition _ensure_fresh (now : Z) (reply : FetchReply) (fx : ExchangeRates)
  : ExchangeRates * list Effect * Completion unit :=
  let age := now - _fetched_at fx in
  if bool_decide (age < _CACHE_TTL_SECONDS) && negb (bool_decide (_rates fx = ∅))
  then (fx, [], Returned tt)
  else _fetch now reply fx.

(** [sorted] on a list of strings, and [str] of a list of strings. *)
Fixpoint insort (k : string) (l : list string) : list string :=
  match l with
  | [] => [k]
  | x :: rest => if String.leb k x then k :: l else x :: insort k rest
  end.

Definition sorted (l : list string) : list string := foldr insort [] l.

Fixpoint join (sep : string) (l : list string) : string :=
  match l with
  | [] => ""
  | [x] => x
  | x :: rest => x +:+ sep +:+ join sep rest
  end.

Section WithUpper.
(** [str.upper] *)
Variable upper : string -> string.
Context {py_repr : PyRepr}.

Definition unsupported (currency : string) (fx : ExchangeRates) : Exc :=
  Error "ValueError"
    ("Unsupported currency: " +:+ repr currency +:+ ". Available: [" +:+
     join ", " (repr <$> sorted (elements (dom (_rates fx)))) +:+ "]").

Definition rate (now : Z) (reply : FetchReply) (currency : string)
    (fx : ExchangeRates) : ExchangeRates * list Effect * Completion Q :=
  let currency := upper currency in
  if bool_decide (currency = "USD") then (fx, [], Returned 1%Q)
  else
    let '(fx', eff, fresh) := _ensure_fresh now reply fx in
    match fresh with
    | Raised exc => (fx', eff, Raised exc)
    | Returned _ =>
        match _rates fx' !! currency with
        | Some r => (fx', eff, Returned r)
        | None => (fx', eff, Raised (unsupported currency fx'))
        end
    end.

End WithUpper.

End Rates.

(* ===================================================================== *)
(** * Theorems *)
(* ===================================================================== *)

Section FnmatchFacts.
Import Fnmatch.

Lemma glob_star_unfold ts s :
  glob (STAR :: ts) s =
  glob ts s || match s with [] => false | _ :: s' => glob (STAR :: ts) s' end.
Proof. destruct s; reflexivity. Qed.

Lemma glob_star_iff ts s :
  glob (STAR :: ts) s = true <-> exists u v, s = u ++ v /\ glob ts v = true.
Proof.
  split.
  - induction s as [|c s IH]; rewrite glob_star_unfold; intros H.
    + rewrite orb_false_r in H. exists [], []. auto.
    + apply orb_true_iff in H as [H|H].
      * exists [], (c :: s). auto.
      * destruct (IH H) as (u & v & -> & Hv). exists (c :: u), v. auto.
  - intros (u & v & -> & Hv). induction u as [|c u IH]; simpl app.
    + rewrite glob_star_unfold, Hv. reflexivity.
    + rewrite glob_star_unfold, IH. apply orb_true_r.
Qed.

Lemma glob_star_star ts s : glob (STAR :: STAR :: ts) s = glob (STAR :: ts) s.
Proof.
  apply eq_true_iff_eq. rewrite !glob_star_iff. split.
  - intros (u & v & -> & Hv). apply glob_star_iff in Hv as (u' & v' & -> & Hv').
    exists (u ++ u'), v'. rewrite <- app_assoc. auto.
  - intros (u & v & -> & Hv). exists u, v. split; [done|].
    apply glob_star_iff. exists [], v. auto.
Qed.

Lemma translate_star pat s :
  glob (translate_from O (chr "*" :: pat)) s = glob (STAR :: translate_from O pat) s.
Proof.
  simpl. destruct (translate_from 0 pat) as [|[] ?]; try reflexivity.
  symmetry. apply glob_star_star.
Qed.

(** On a pattern without [[], [fnmatch] is the matching the specification
    describes, with runs that may be empty. *)
Lemma glob_wildcard_match pat : forall s,
  chr "[" ∉ pat ->
  glob (translate_from O pat) s = true <-> wildcard_match pat s.
Proof.
  induction pat as [|c pat IH]; intros s Hb.
  - simpl. destruct s; split; try discriminate.
    + intros _. constructor.
    + done.
    + inversion 1.
  - apply not_elem_of_cons in Hb as [Hc Hb].
    destruct (N.eqb_spec c (chr "*")) as [->|Hstar].
    { rewrite translate_star, glob_star_iff. split.
      - intros (u & v & -> & Hv). constructor. by apply IH.
      - inversion 1; subst; try congruence.
        eexists _, _. split; [done|]. by apply IH. }
    destruct (N.eqb_spec c (chr "?")) as [->|Hq].
    { simpl. destruct s as [|x s].
      - split; [discriminate|]. inversion 1; subst; congruence.
      - rewrite (IH s Hb). split.
        + intros Hm. by constructor.
        + inversion 1; subst; try congruence; discriminate. }
    simpl. rewrite (proj2 (N.eqb_neq _ _) Hstar), (proj2 (N.eqb_neq _ _) Hq).
    rewrite (proj2 (N.eqb_neq c (chr "[")) (fun H => Hc (eq_sym H))).
    destruct s as [|x s]; simpl.
    + split; [discriminate|]. inversion 1; subst; congruence.
    + destruct (N.eqb_spec c x) as [<-|Hne]; simpl.
      * rewrite (IH s Hb). split.
        -- intros Hm. by constructor.
        -- inversion 1; subst; congruence.
      * split; [discriminate|]. inversion 1; subst; congruence.
Qed.

End FnmatchFacts.

Section PubsubFacts.
Import Pubsub.

Lemma _invoke_spec sub event bus :
  _invoke sub event bus =
  (foldl apply_call bus (fst (handler sub event)), report sub event, Returned tt).
Proof.
  unfold _invoke, report. destruct (handler sub event) as [calls [[]|exc]]; reflexivity.
Qed.

Lemma dispatch_spec matched event bus :
  snd (dispatch matched event bus) = Returned tt /\
  snd (fst (dispatch matched event bus)) =
    concat (map (fun s => report s event) matched).
Proof.
  revert bus. induction matched as [|s rest IH]; intros bus; simpl.
  - auto.
  - rewrite _invoke_spec.
    specialize (IH (foldl apply_call bus (fst (handler s event)))).
    destruct (dispatch rest event _) as [[bus2 eff2] r]. simpl in *.
    destruct IH as [-> ->]. auto.
Qed.

Lemma invocations_app e1 e2 :
  invocations (e1 ++ e2) = invocations e1 ++ invocations e2.
Proof. unfold invocations. apply omap_app. Qed.

Lemma invocations_report s event : invocations (report s event) = [(s, event)].
Proof. unfold report. destruct (snd (handler s event)); reflexivity. Qed.

Lemma invocations_reports matched event :
  invocations (concat (map (fun s => report s event) matched)) =
  map (fun s => (s, event)) matched.
Proof.
  induction matched as [|s rest IH]; simpl; [reflexivity|].
  rewrite invocations_app, invocations_report, IH. reflexivity.
Qed.

Lemma _delivery_loop_spec q : forall bus,
  _queue bus = q ->
  snd (_delivery_loop (length q) bus) =
    concat (map (fun p => report (fst p) (snd p)) q) /\
  _queue (fst (_delivery_loop (length q) bus)) = [].
Proof.
  induction q as [|[s ev] q IH]; intros bus Hq; simpl.
  - auto.
  - unfold _delivery_step. rewrite Hq, _invoke_spec.
    match goal with |- context [_delivery_loop _ ?b] =>
      assert (Hb : _queue b = q); [|specialize (IH b Hb)] end.
    { clear. generalize (fst (handler s ev)) as calls.
      set (b0 := {| _subs := _; _async := _; _queue := q |}).
      assert (H0 : _queue b0 = q) by reflexivity. revert H0.
      generalize b0. clear b0. intros b0 H0 calls. revert b0 H0.
      induction calls as [|c calls IHc]; intros b0 H0; simpl; [done|].
      apply IHc. destruct c; simpl; done. }
    destruct (_delivery_loop (length q) _) as [bus2 eff2]. simpl in *.
    destruct IH as [-> ->]. auto.
Qed.

Lemma elem_of_concat {A} (x : A) (ls : list (list A)) :
  x ∈ concat ls <-> exists l, l ∈ ls /\ x ∈ l.
Proof.
  rewrite list_elem_of_In, in_concat. split; intros (l & H1 & H2); exists l;
    rewrite ?list_elem_of_In in *; auto.
Qed.

Lemma snapshot_elem bus T s :
  s ∈ snapshot bus T <-> s ∈ _subs bus /\ matches s T = true.
Proof.
  unfold snapshot. rewrite !list_elem_of_In, filter_In. reflexivity.
Qed.

Lemma NoDup_map_filter {A B} (f : A -> B) (P : A -> bool) (l : list A) :
  NoDup (map f l) -> NoDup (map f (List.filter P l)).
Proof.
  induction l as [|a l IH]; simpl; [done|].
  rewrite NoDup_cons. intros [Hn Hd]. destruct (P a); simpl; [|auto].
  apply NoDup_cons. split; [|auto].
  intros Hin. apply Hn. apply list_elem_of_In in Hin.
  apply in_map_iff in Hin as (x & <- & Hx). apply filter_In in Hx as [Hx _].
  apply list_elem_of_In, in_map. done.
Qed.

End PubsubFacts.

Section PubsubClaims.
Import Fnmatch Pubsub.

Lemma fnmatch_wildcard (T p : string) :
  chr "[" ∉ codepoints p ->
  fnmatch T p = true <-> wildcard_match (codepoints p) (codepoints T).
Proof. intros Hb. unfold fnmatch, translate. by apply glob_wildcard_match. Qed.

Lemma fnmatch_star_any (T : string) : fnmatch T "*" = true.
Proof.
  unfold fnmatch. change (translate "*") with [STAR].
  apply glob_star_iff. exists (codepoints T), []. split; [|reflexivity].
  by rewrite app_nil_r.
Qed.

(** C2 (amended).  [Subscription.matches] globs the topic as one string of
    characters, dots being characters like the others: on a pattern without
    [[], each [*] stands for a run of characters that may be empty, each
    [?] for exactly one character, and every other character for itself.
    The pattern [*] matches every topic; [a.*] matches [a.b] and [a.b.c]
    but not [b.a]; and it matches [a.] too, the run of the [*] being
    empty. *)
Theorem matches_glob_single_string (i : string) (h : Handler) (T : string) :
  (forall p, (chr "[" ∉ codepoints p) ->
     matches {| id := i; pattern := p; handler := h |} T = true <->
     wildcard_match (codepoints p) (codepoints T)) /\
  matches {| id := i; pattern := "*"; handler := h |} T = true /\
  matches {| id := i; pattern := "a.*"; handler := h |} "a.b" = true /\
  matches {| id := i; pattern := "a.*"; handler := h |} "a.b.c" = true /\
  matches {| id := i; pattern := "a.*"; handler := h |} "b.a" = false /\
  matches {| id := i; pattern := "a.*"; handler := h |} "a." = true.
Proof.
  unfold matches; simpl.
  split; [intros p; apply fnmatch_wildcard|].
  split; [apply fnmatch_star_any|].
  repeat split; reflexivity.
Qed.

(** The topic [a.] is matched by [a.*], although no non-empty run of
    characters is left for the [*]. *)
Lemma star_matches_empty_run :
  matches {| id := "0"; pattern := "a.*"; handler := quiet |} "a." = true /\
  ~ wildcard_match_nonempty (codepoints "a.*") (codepoints "a.").
Proof.
  split; [reflexivity|]. intros H.
  change (codepoints "a.*") with [chr "a"; chr "."; chr "*"] in H.
  change (codepoints "a.") with [chr "a"; chr "."] in H.
  inversion H; subst; try discriminate.
  match goal with Ha : wildcard_match_nonempty [_; _] _ |- _ =>
    inversion Ha; subst; try discriminate end.
  match goal with Hb : wildcard_match_nonempty [_] _ |- _ =>
    inversion Hb; subst; try discriminate end.
  match goal with He : _ ++ _ = [] |- _ =>
    apply app_eq_nil in He as [-> ->] end.
  done.
Qed.

(** C3.  For every topic and every call of [publish] on a bus whose
    subscriptions have distinct ids: the subscriptions that receive the
    constructed event are those of the snapshot, i.e. the subscriptions of
    the list at publish time whose pattern matches the topic, each of them
    once and no other.  In synchronous mode these are the handler calls
    [publish] makes, whatever the handlers do to the subscription list
    meanwhile; in asynchronous mode these are the pairs [publish] appends
    to the queue, and the delivery loop makes one handler call per queued
    pair. *)
Theorem publish_delivers_to_snapshot
    (now : Z) (T exch : string) (d : Payload) (bus : EventBus) :
  NoDup (map id (_subs bus)) ->
  let event := mk_event now T exch d in
  let out := publish now T exch d bus in
  let bus' := fst (fst out) in
  let delivered :=
    if _async bus then drop (length (_queue bus)) (_queue bus')
    else invocations (snd (fst out)) in
  delivered = map (fun s => (s, event)) (snapshot bus T) /\
  NoDup (map (fun p => id (fst p)) delivered) /\
  (forall s, s ∈ snapshot bus T <-> s ∈ _subs bus /\ matches s T = true) /\
  (forall s e, (s, e) ∈ delivered <->
               e = event /\ s ∈ _subs bus /\ matches s T = true) /\
  (_async bus = true ->
     _queue bus' = _queue bus ++ delivered /\
     invocations (snd (_delivery_loop (length (_queue bus')) bus')) = _queue bus').
Proof.
  intros Hnd event out bus' delivered.
  assert (Hdel : delivered = map (fun s => (s, event)) (snapshot bus T)).
  { subst delivered bus' out. unfold publish. fold event.
    destruct (_async bus); simpl.
    - rewrite drop_app_length. reflexivity.
    - destruct (dispatch_spec (snapshot bus T) event bus) as [_ ->].
      apply invocations_reports. }
  split; [exact Hdel|].
  split; [rewrite Hdel, map_map; apply NoDup_map_filter; exact Hnd|].
  split; [intros s; apply snapshot_elem|].
  split.
  - intros s e. rewrite Hdel, list_elem_of_fmap. split.
    + intros (s' & [= -> ->] & Hs). split; [done|]. by apply snapshot_elem.
    + intros (-> & Hs). exists s. split; [done|]. by apply snapshot_elem.
  - intros Ha. subst delivered bus' out. unfold publish in *. fold event in Hdel |- *.
    rewrite Ha in *. simpl in *. rewrite drop_app_length. split; [reflexivity|].
    match goal with |- context [_delivery_loop (length ?q) ?b] =>
      destruct (_delivery_loop_spec q b eq_refl) as [-> _]; set (qq := q) end.
    clear. induction qq as [|[s e] qq IH]; simpl; [reflexivity|].
    rewrite invocations_app, invocations_report, IH. reflexivity.
Qed.

(** C6.  For every published event: [publish] returns to its caller
    without raising, every subscription of the snapshot has its handler
    called with the event whatever the other handlers do, and each handler
    that raises leaves a log record carrying the topic and the first eight
    characters of the subscription id.  In asynchronous mode the calls and
    the records are those of the delivery loop draining the queue. *)
Theorem publish_contains_handler_failures
    (now : Z) (T exch : string) (d : Payload) (bus : EventBus) :
  let event := mk_event now T exch d in
  let out := publish now T exch d bus in
  let bus' := fst (fst out) in
  let effects :=
    if _async bus
    then snd (_delivery_loop (length (_queue bus')) bus')
    else snd (fst out) in
  snd out = Returned tt /\
  (forall s, s ∈ snapshot bus T -> Invoked s event ∈ effects) /\
  (forall s exc, s ∈ snapshot bus T ->
     snd (handler s event) = Raised exc ->
     LogError T (String.substring 0 8 (id s)) exc ∈ effects).
Proof.
  intros event out bus' effects.
  assert (Hret : snd out = Returned tt).
  { subst out. unfold publish. destruct (_async bus); [reflexivity|].
    apply dispatch_spec. }
  assert (Heff : forall s, s ∈ snapshot bus T ->
                 forall e, e ∈ report s event -> e ∈ effects).
  { intros s Hs e He. subst effects bus' out. unfold publish. fold event.
    destruct (_async bus); simpl.
    - match goal with |- context [_delivery_loop (length ?q) ?b] =>
        destruct (_delivery_loop_spec q b eq_refl) as [-> _] end.
      rewrite map_app, concat_app, elem_of_app. right.
      rewrite map_map. simpl.
      apply elem_of_concat. exists (report s event). split; [|done].
      apply list_elem_of_fmap. eauto.
    - destruct (dispatch_spec (snapshot bus T) event bus) as [_ ->].
      apply elem_of_concat. exists (report s event). split; [|done].
      apply list_elem_of_fmap. eauto. }
  split; [exact Hret|]. split.
  - intros s Hs. apply (Heff s Hs). unfold report.
    destruct (snd (handler s event)); apply list_elem_of_here.
  - intros s exc Hs Hr. apply (Heff s Hs). unfold report. rewrite Hr.
    apply list_elem_of_further, list_elem_of_here.
Qed.

End PubsubClaims.

Section AuthFacts.
Import Auth.

Lemma _needs_auth_Some m now name r :
  _results m !! name = Some r ->
  _needs_auth m now name = Returned (stale m now r).
Proof.
  intros H. unfold _needs_auth, stale. rewrite H.
  destruct r as [e [] a er]; simpl; repeat case_bool_decide; simpl;
    try reflexivity; try (exfalso; intuition congruence).
  all: destruct (_is_expired _ _ _); reflexivity.
Qed.

Lemma stale_names_elem m now name :
  name ∈ stale_names m now <->
  exists r, _results m !! name = Some r /\ stale m now r = true.
Proof.
  unfold stale_names. rewrite elem_of_dom. unfold is_Some.
  setoid_rewrite map_lookup_filter_Some. simpl. split.
  - intros (r & Hr & Hs). exists r. split; [done|]. unfold stale.
    destruct Hs as [Hs|Hs]; [|rewrite Hs; apply orb_true_r].
    case_bool_decide as Hd; [|done]. rewrite Hd in Hs.
    exfalso. intuition congruence.
  - intros (r & Hr & Hs). exists r. split; [done|]. unfold stale in Hs.
    apply orb_true_iff in Hs as [Hs|Hs]; [left|by right].
    case_bool_decide as Hd; [done|]. destruct (status r); intuition congruence.
Qed.

Lemma select_targets_noforce m now :
  dom (_clients m) ⊆ dom (_results m) ->
  select_targets m false now = Returned (filter (due m now) (_clients m)).
Proof.
  unfold select_targets. generalize (_clients m) as cs.
  intros cs. apply (map_fold_weak_ind
    (fun r cs => dom cs ⊆ dom (_results m) ->
                 r = Returned (filter (due m now) cs))).
  - intros _. by rewrite map_filter_empty.
  - intros name c cs' acc Hnone IH Hdom.
    rewrite IH by (rewrite dom_insert in Hdom; set_solver).
    assert (Hin : name ∈ dom (_results m)) by (rewrite dom_insert in Hdom; set_solver).
    apply elem_of_dom in Hin as [r Hr]. simpl.
    rewrite (_needs_auth_Some _ _ _ _ Hr). simpl.
    destruct (stale m now r) eqn:Hs.
    + rewrite map_filter_insert_True; [done|]. exists r. auto.
    + rewrite map_filter_insert_False.
      * by rewrite delete_id.
      * intros (r' & Hr' & Hs'). simpl in Hr'. congruence.
Qed.

Lemma targets_dom m now :
  dom (_clients m) = dom (_results m) ->
  dom (filter (due m now) (_clients m)) = stale_names m now.
Proof.
  intros Hdom. apply set_eq. intros name.
  rewrite stale_names_elem, elem_of_dom. unfold is_Some.
  setoid_rewrite map_lookup_filter_Some. unfold due. simpl. split.
  - intros (c & _ & H). exact H.
  - intros (r & Hr & Hs).
    assert (Hin : name ∈ dom (_clients m)) by (rewrite Hdom; apply elem_of_dom; eauto).
    apply elem_of_dom in Hin as [c Hc]. eauto.
Qed.

Lemma ready_fold m :
  dom (_results m) ⊆ dom (_clients m) ->
  map_fold (fun name result acc =>
              ready ← acc;
              if bool_decide (status result = SUCCESS) then
                match _clients m !! name with
                | Some client => Returned (<[name := client]> ready)
                | None => Raised (KeyError name)
                end
              else Returned ready)
           (Returned ∅) (_results m) = Returned (ready_of m).
Proof.
  unfold ready_of. generalize (_results m) as rs. intros rs.
  apply (map_fold_weak_ind
    (fun acc rs => dom rs ⊆ dom (_clients m) ->
       acc = Returned (map_imap (fun name result =>
                          if bool_decide (status result = SUCCESS)
                          then _clients m !! name else None) rs))).
  - intros _. by rewrite map_imap_empty.
  - intros name res rs' acc Hnone IH Hdom.
    rewrite IH by (rewrite dom_insert in Hdom; set_solver).
    assert (Hin : name ∈ dom (_clients m)) by (rewrite dom_insert in Hdom; set_solver).
    apply elem_of_dom in Hin as [c Hc]. simpl.
    rewrite map_imap_insert, Hc. case_bool_decide; [done|].
    rewrite delete_id; [done|]. by rewrite map_lookup_imap, Hnone.
Qed.

Lemma _mark_expired_lookup m now name :
  _results (_mark_expired m now) !! name =
  (fun result =>
     if bool_decide (status result = SUCCESS) && _is_expired m now result
     then {| exchange := name; status := EXPIRED;
             authenticated_at := authenticated_at result; error := None |}
     else result) <$> _results m !! name.
Proof.
  unfold _mark_expired. simpl. rewrite map_lookup_imap.
  destruct (_results m !! name); reflexivity.
Qed.

Lemma _mark_expired_dom m now :
  dom (_results (_mark_expired m now)) = dom (_results m).
Proof.
  apply set_eq. intros name. rewrite !elem_of_dom, _mark_expired_lookup.
  apply fmap_is_Some.
Qed.

Lemma _is_expired_true m now r :
  _is_expired m now r = true <->
  exists t, authenticated_at r = Some t /\ now - t >= _token_ttl m.
Proof.
  unfold _is_expired. destruct (authenticated_at r) as [t|].
  - rewrite Z.geb_le. split.
    + intros H. exists t. split; [done|lia].
    + intros (t' & [= <-] & H). lia.
  - split; [discriminate|]. intros (t & [=] & _).
Qed.

End AuthFacts.

Section AuthClaims.
Import Auth.

Lemma consistent_init clients ttl workers :
  consistent (__init__ clients ttl workers).
Proof.
  split; simpl.
  - apply set_eq. intros name. rewrite !elem_of_dom, map_lookup_imap.
    destruct (clients !! name); simpl; split; intros [? ?]; eauto; discriminate.
  - intros name r. rewrite map_lookup_imap.
    destruct (clients !! name); simpl; [|discriminate].
    intros [= <-]. discriminate.
Qed.

Lemma consistent_mark_expired m now :
  consistent m -> consistent (_mark_expired m now).
Proof.
  intros [Hdom Hat]. split.
  - rewrite _mark_expired_dom. exact Hdom.
  - intros name r. rewrite _mark_expired_lookup.
    destruct (_results m !! name) as [r0|] eqn:E; simpl; [|discriminate].
    intros [= <-]. destruct (_ && _); simpl; [discriminate|]. eauto.
Qed.

Lemma consistent_authenticate_all m force now o :
  consistent m -> authenticate_all m force now = Returned o ->
  consistent (manager o).
Proof.
  intros [Hdom Hat]. unfold authenticate_all.
  assert (Hsub : forall ts, select_targets m force now = Returned ts ->
                            dom ts ⊆ dom (_clients m)).
  { unfold select_targets. generalize (_clients m) as cs. intros cs.
    apply (map_fold_weak_ind
      (fun r cs => forall ts, r = Returned ts -> dom ts ⊆ dom cs)).
    - intros ts [= <-]. set_solver.
    - intros name c cs' acc _ IH ts. destruct acc as [ts0|]; simpl; [|discriminate].
      specialize (IH ts0 eq_refl).
      destruct (if force then _ else _) as [[]|]; simpl; intros [= <-].
      * rewrite !dom_insert. by apply union_mono_l.
      * rewrite dom_insert. by apply union_subseteq_r'. }
  destruct (select_targets m force now) as [ts|] eqn:E; simpl; [|discriminate].
  specialize (Hsub ts eq_refl).
  repeat case_bool_decide; intros [= <-]; simpl; [done|]. split; simpl.
  - apply set_eq. intros name. rewrite Hdom, !elem_of_dom, lookup_union, map_lookup_imap.
    destruct (ts !! name) as [c|] eqn:Ec; simpl.
    + assert (name ∈ dom (_results m)) as [r ->]%elem_of_dom; [|split; eauto].
      rewrite <- Hdom. apply Hsub, elem_of_dom. eauto.
    + destruct (_results m !! name); simpl; split; eauto.
  - intros name r. rewrite lookup_union, map_lookup_imap.
    destruct (ts !! name) as [c|] eqn:Ec; simpl.
    + destruct (_results m !! name); simpl; intros [= <-]; unfold _auth_one;
        destruct (authenticate c); simpl; eauto; discriminate.
    + destruct (_results m !! name) eqn:Er; simpl; [|discriminate].
      intros [= <-]. eauto.
Qed.

(** C4.  For every state of the manager with one record per client:
    [refresh_expired()] and [authenticate_all(force=False)] complete alike,
    with the same set of clients whose [authenticate()] is invoked and the
    same resulting map; the clients invoked are the stale ones, each stale
    entry of the map is the outcome of that client's call and every other
    entry is left as it was. *)
Theorem refresh_expired_as_authenticate_all (m : AuthManager) (now : Z) :
  dom (_clients m) = dom (_results m) ->
  refresh_expired m now = authenticate_all m false now /\
  (forall o, refresh_expired m now = Returned o ->
     invoked o = stale_names m now /\
     forall name,
       returned_map o !! name =
       if bool_decide (name ∈ stale_names m now)
       then _auth_one now name <$> _clients m !! name
       else _results m !! name).
Proof.
  intros Hdom.
  assert (Hsel := select_targets_noforce m now ltac:(rewrite Hdom; done)).
  assert (Hts := targets_dom m now Hdom).
  assert (Heq : refresh_expired m now = authenticate_all m false now).
  { unfold refresh_expired. case_bool_decide as Hst; [|reflexivity].
    unfold authenticate_all. rewrite Hsel. simpl.
    rewrite Hst in Hts. apply dom_empty_iff_L in Hts. rewrite Hts.
    rewrite bool_decide_eq_true_2 by done. reflexivity. }
  split; [exact Heq|]. intros o. rewrite Heq. unfold authenticate_all.
  rewrite Hsel. simpl. unfold returned_map.
  repeat case_bool_decide; intros [= <-]; simpl.
  - match goal with H : filter _ _ = ∅ |- _ => rewrite H, dom_empty_L in Hts end.
    split; [done|]. intros name. rewrite <- Hts.
    rewrite bool_decide_eq_false_2 by set_solver. done.
  - split; [done|]. intros name. rewrite lookup_union, map_lookup_imap.
    rewrite <- Hts. case_bool_decide as Hin.
    + apply elem_of_dom in Hin as [c Hc]. rewrite Hc. simpl.
      apply map_lookup_filter_Some in Hc as [-> _]. simpl.
      destruct (_results m !! name); reflexivity.
    + apply not_elem_of_dom in Hin. rewrite Hin. simpl.
      destruct (_results m !! name); reflexivity.
Qed.

(** C5.  For every consistent state of the manager and every time [now]:
    [authenticated_clients()] returns exactly the clients of the sources
    whose record is in SUCCESS with [authenticated_at + token_ttl > now],
    and the state it leaves has every SUCCESS record whose age has reached
    [token_ttl] replaced by an EXPIRED record with the same
    [authenticated_at], all other records being untouched. *)
Theorem authenticated_clients_fresh_success (m : AuthManager) (now : Z) :
  consistent m ->
  let m' := fst (authenticated_clients m now) in
  (exists ready,
     snd (authenticated_clients m now) = Returned ready /\
     forall name client,
       ready !! name = Some client <->
       _clients m !! name = Some client /\
       exists r t, _results m !! name = Some r /\ status r = SUCCESS /\
                   authenticated_at r = Some t /\ t + _token_ttl m > now) /\
  _clients m' = _clients m /\
  (forall name r, _results m !! name = Some r ->
     (status r = SUCCESS ->
      forall t, authenticated_at r = Some t -> now - t >= _token_ttl m ->
        _results m' !! name =
        Some {| exchange := name; status := EXPIRED;
                authenticated_at := Some t; error := None |}) /\
     (~ (status r = SUCCESS /\
         exists t, authenticated_at r = Some t /\ now - t >= _token_ttl m) ->
      _results m' !! name = Some r)).
Proof.
  intros [Hdom Hat] m'. subst m'. unfold authenticated_clients. cbn [fst snd].
  split; [|split; [reflexivity|]].
  - exists (ready_of (_mark_expired m now)). split.
    + apply (ready_fold (_mark_expired m now)).
      rewrite _mark_expired_dom. change (_clients (_mark_expired m now)) with (_clients m).
      rewrite Hdom. done.
    + intros name client. unfold ready_of.
      rewrite map_lookup_imap, _mark_expired_lookup.
      change (_clients (_mark_expired m now)) with (_clients m).
      destruct (_results m !! name) as [r|] eqn:Er; simpl.
      * destruct (bool_decide (status r = SUCCESS)) eqn:Hs; simpl.
        -- apply bool_decide_eq_true in Hs.
           destruct (Hat name r Er Hs) as [t Ht].
           destruct (_is_expired m now r) eqn:He; simpl.
           ++ apply _is_expired_true in He as (t' & Ht' & Hage).
              split; [discriminate|].
              intros (_ & r' & t'' & [= <-] & _ & Ht'' & Hfresh).
              rewrite Ht' in Ht''. injection Ht'' as <-. lia.
           ++ rewrite bool_decide_eq_true_2 by done. split.
              ** intros Hc. split; [done|]. exists r, t. repeat split; try done.
                 destruct (Z_lt_ge_dec now (t + _token_ttl m)); [lia|].
                 assert (_is_expired m now r = true); [|congruence].
                 apply _is_expired_true. exists t. split; [done|lia].
              ** intros [Hc _]. done.
        -- apply bool_decide_eq_false in Hs. rewrite bool_decide_eq_false_2 by done.
           split; [discriminate|]. intros (_ & r' & t & [= <-] & Hs' & _). done.
      * split; [discriminate|]. intros (_ & r' & t & [=] & _).
  - intros name r Er. rewrite _mark_expired_lookup, Er. simpl. split.
    + intros Hs t Ht Hage. rewrite bool_decide_eq_true_2 by done.
      assert (_is_expired m now r = true) as ->.
      { apply _is_expired_true. eauto. }
      simpl. rewrite Ht. reflexivity.
    + intros Hn. destruct (bool_decide (status r = SUCCESS)) eqn:Hs; simpl; [|done].
      apply bool_decide_eq_true in Hs.
      destruct (_is_expired m now r) eqn:He; [|done].
      apply _is_expired_true in He. exfalso. apply Hn. auto.
Qed.

End AuthClaims.

Section FeedFacts.
Import Feed.

Lemma odds_not_started S : odds_topic S <> started_topic S.
Proof. discriminate. Qed.

Lemma error_not_started S : error_topic S <> started_topic S.
Proof. discriminate. Qed.

Lemma stopped_not_started S : stopped_topic S <> started_topic S.
Proof. discriminate. Qed.

Lemma _poll_name now cl feed auth : name (poll_feed (_poll now cl feed auth)) = name feed.
Proof.
  unfold _poll. destruct (ensure_session now cl feed auth) as [a [[]|e]]; simpl; [|done].
  destruct (Auth.get_markets cl _); reflexivity.
Qed.

Lemma _poll_stop now cl feed auth :
  _stop_event (poll_feed (_poll now cl feed auth)) = _stop_event feed.
Proof.
  unfold _poll. destruct (ensure_session now cl feed auth) as [a [[]|e]]; simpl; [|done].
  destruct (Auth.get_markets cl _); reflexivity.
Qed.

(** [_poll] publishes the stamped snapshot as its last step, and nothing
    when it raises. *)
Lemma _poll_published now cl feed auth :
  match poll_result (_poll now cl feed auth) with
  | Returned _ =>
      exists markets,
        Auth.get_markets cl (_event_type_ids feed) = Returned markets /\
        poll_published (_poll now cl feed auth) =
          [odds_pub (name feed) (map (stamp (_currency feed)) markets)]
  | Raised _ => poll_published (_poll now cl feed auth) = []
  end.
Proof.
  unfold _poll. destruct (ensure_session now cl feed auth) as [a [[]|e]]; simpl; [|done].
  destruct (Auth.get_markets cl _) as [ms|e]; simpl; eauto.
Qed.

Context {py_repr : PyRepr}.

Lemma cycle_name fr c feed auth : name (cycle_feed (cycle fr c feed auth)) = name feed.
Proof.
  unfold cycle. destruct (poll_result _); simpl; apply _poll_name.
Qed.

Lemma started_after_odds_clean S pubs :
  Forall (fun p => topic p <> started_topic S) pubs -> started_after_odds S pubs.
Proof.
  intros HF pre p post -> Hp. rewrite Forall_app, Forall_cons in HF.
  destruct HF as (_ & Hn & _). done.
Qed.

Lemma started_after_odds_cons S x pubs :
  topic x <> started_topic S -> started_after_odds S pubs ->
  started_after_odds S (x :: pubs).
Proof.
  intros Hx Hl pre p post Heq Hp. destruct pre as [|y pre]; simpl in Heq.
  - injection Heq as <- _. done.
  - injection Heq as <- Heq. destruct (Hl pre p post Heq Hp) as (q & Hq & Ht).
    exists q. split; [by apply list_elem_of_further|done].
Qed.

Lemma started_after_odds_head S x pubs :
  topic x = odds_topic S -> started_after_odds S (x :: pubs).
Proof.
  intros Hx pre p post Heq Hp. destruct pre as [|y pre]; simpl in Heq.
  - injection Heq as <- _. rewrite Hx in Hp. by apply odds_not_started in Hp.
  - injection Heq as <- _. exists x. split; [apply list_elem_of_here|done].
Qed.

Lemma started_after_odds_snoc S pubs x :
  topic x <> started_topic S -> started_after_odds S pubs ->
  started_after_odds S (pubs ++ [x]).
Proof.
  intros Hx Hl pre p post Heq Hp.
  destruct post as [|z post _] using rev_ind.
  - apply app_inj_tail in Heq as [_ <-]. done.
  - rewrite app_comm_cons, app_assoc in Heq. apply app_inj_tail in Heq as [Heq _].
    exact (Hl pre p post Heq Hp).
Qed.

Lemma count_started_clean S pubs :
  Forall (fun p => topic p <> started_topic S) pubs -> count_started S pubs = 0%nat.
Proof.
  unfold count_started. induction 1 as [|x l Hx _ IH]; [reflexivity|].
  rewrite filter_cons_False by done. exact IH.
Qed.

Lemma cycle_cases fr c feed auth :
  let o := cycle fr c feed auth in
  (exists exc,
     cycle_polled o = Raised exc /\
     cycle_published o = [error_pub (name feed) (str exc)] /\
     cycle_first_run o = fr) \/
  (exists markets,
     cycle_polled o = Returned tt /\
     Auth.get_markets (client c) (_event_type_ids feed) = Returned markets /\
     cycle_published o =
       odds_pub (name feed) (map (stamp (_currency feed)) markets) ::
       (if fr then [started_pub (name feed)] else []) /\
     cycle_first_run o = false).
Proof.
  intros o. subst o. unfold cycle.
  pose proof (_poll_published (clock c) (client c) feed (adapters feed c auth)) as Hp.
  destruct (poll_result _) as [[]|exc] eqn:Hr; simpl.
  - right. destruct Hp as (ms & Hms & ->). exists ms. auto.
  - left. exists exc. rewrite Hp. auto.
Qed.

Lemma loop_from_started cycles : forall fr feed auth,
  let pubs := snd (loop_from fr cycles feed auth) in
  (fr = false -> Forall (fun p => topic p <> started_topic (name feed)) pubs) /\
  started_after_odds (name feed) pubs /\
  (count_started (name feed) pubs <= 1)%nat.
Proof.
  induction cycles as [|c rest IH]; intros fr feed auth; simpl.
  - split; [constructor|]. split; [by apply started_after_odds_clean|].
    rewrite count_started_clean by constructor. lia.
  - destruct (_stop_event feed); simpl.
    { split; [constructor|]. split; [by apply started_after_odds_clean|].
      rewrite count_started_clean by constructor. lia. }
    pose proof (cycle_cases fr c feed auth) as Hc. simpl in Hc.
    pose proof (cycle_name fr c feed auth) as Hn.
    set (o := cycle fr c feed auth) in *.
    specialize (IH (cycle_first_run o) (cycle_feed o) (cycle_auth o)).
    destruct (loop_from _ rest _ _) as [[f a] pubs]. simpl in *.
    rewrite Hn in IH. destruct IH as (IHclean & IHord & IHcount).
    destruct Hc as [(exc & _ & -> & Hfr)|(ms & _ & _ & -> & Hfr)]; rewrite Hfr in *; simpl.
    + split; [|split].
      * intros ->. constructor; [apply error_not_started|auto].
      * apply started_after_odds_cons; [apply error_not_started|done].
      * unfold count_started in *. rewrite filter_cons_False; [done|].
        apply error_not_started.
    + specialize (IHclean eq_refl). split; [|split].
      * intros ->. constructor; [apply odds_not_started|done].
      * by apply started_after_odds_head.
      * unfold count_started. rewrite filter_cons_False by apply odds_not_started.
        destruct fr; simpl.
        -- rewrite filter_cons_True by done. simpl.
           fold (count_started (name feed) pubs).
           rewrite count_started_clean by done. done.
        -- fold (count_started (name feed) pubs).
           rewrite count_started_clean by done. lia.
Qed.

End FeedFacts.

Section FeedClaims.
Import Feed.
Context {py_repr : PyRepr}.

Lemma loop_from_name cycles : forall fr feed auth,
  name (fst (fst (loop_from fr cycles feed auth))) = name feed.
Proof.
  induction cycles as [|c rest IH]; intros fr feed auth; simpl; [done|].
  destruct (_stop_event feed); [done|].
  specialize (IH (cycle_first_run (cycle fr c feed auth))
                 (cycle_feed (cycle fr c feed auth))
                 (cycle_auth (cycle fr c feed auth))).
  destruct (loop_from _ rest _ _) as [[f a] pubs]. simpl in *.
  rewrite IH. apply cycle_name.
Qed.

(** C7.  For every poll cycle of a feed: an [odds.<source>] publication is
    made exactly when [_poll] returns, and it is then the snapshot of the
    adapter with the currency of the feed stamped on every market and
    outcome; a cycle whose [_poll] raises publishes
    [feed.error.<source>] with payload [{error: str(exc)}] (for a
    [KeyError] the [repr] of its key, otherwise the message) and nothing
    else, and the worker goes on: the failure sets no stop flag and the
    loop takes the next cycle with the same first-run flag. *)
Theorem poll_cycle_publications
    (first_run : bool) (c : Cycle) (feed : OddsFeed) (auth : Auth.AuthManager) :
  let o := cycle first_run c feed auth in
  let S := name feed in
  let stamped := fun mk : Models.Market =>
    {| Models.market_id := Models.market_id mk;
       Models.market_name := Models.market_name mk;
       Models.event_name := Models.event_name mk;
       Models.market_exchange := Models.market_exchange mk;
       Models.market_currency := _currency feed;
       Models.outcomes :=
         map (fun oc : Models.Outcome =>
                {| Models.outcome_name := Models.outcome_name oc;
                   Models.odds := Models.odds oc;
                   Models.outcome_exchange := Models.outcome_exchange oc;
                   Models.outcome_currency := _currency feed |})
             (Models.outcomes mk) |} in
  ((exists p, p ∈ cycle_published o /\ topic p = "odds." +:+ S) <->
   cycle_polled o = Returned tt) /\
  (cycle_polled o = Returned tt ->
   exists markets,
     Auth.get_markets (client c) (_event_type_ids feed) = Returned markets /\
     cycle_published o =
       {| topic := "odds." +:+ S; exchange := S;
          data := Pubsub.MarketList (map stamped markets) |} ::
       (if first_run
        then [{| topic := "feed.started." +:+ S; exchange := S;
                 data := Pubsub.NoData |}]
        else [])) /\
  (forall exc, cycle_polled o = Raised exc ->
     cycle_published o =
       [{| topic := "feed.error." +:+ S; exchange := S;
           data := Pubsub.ErrorDict
                     match exc with
                     | KeyError key => repr key
                     | Error _ text => text
                     end |}] /\
     cycle_first_run o = first_run /\
     _stop_event (cycle_feed o) = _stop_event feed || stop_requested c) /\
  (forall rest, _stop_event feed = false ->
     snd (loop_from first_run (c :: rest) feed auth) =
     cycle_published o ++
     snd (loop_from (cycle_first_run o) rest (cycle_feed o) (cycle_auth o))).
Proof.
  intros o S stamped. pose proof (cycle_cases first_run c feed auth) as Hc.
  fold o S in Hc. split; [|split; [|split]].
  - destruct Hc as [(exc & Hr & Hp & _)|(ms & Hr & _ & Hp & _)]; rewrite Hr, Hp.
    + split; [|discriminate]. intros (p & Hin & Ht).
      apply list_elem_of_singleton in Hin as ->. discriminate.
    + split; [done|]. intros _. eexists. split; [apply list_elem_of_here|done].
  - intros Hr. destruct Hc as [(exc & Hr' & _)|(ms & _ & Hms & Hp & _)]; [congruence|].
    exists ms. split; [done|]. rewrite Hp. reflexivity.
  - intros exc Hr.
    destruct Hc as [(exc' & Hr' & Hp & Hf)|(ms & Hr' & _)]; [|congruence].
    rewrite Hr in Hr'. injection Hr' as <-. split; [|split; [done|]].
    + rewrite Hp. by destruct exc.
    + subst o. unfold cycle. destruct (poll_result _); simpl; by rewrite _poll_stop.
  - intros rest Hstop. simpl. rewrite Hstop. fold o.
    destruct (loop_from _ rest _ _) as [[f a] pubs]. reflexivity.
Qed.

(** C8.  For every source and every [start()]-to-[stop()] episode of its
    feed: [feed.started.<source>] is published at most once, and every
    such publication comes after an [odds.<source>] publication of the
    same episode. *)
Theorem started_once_after_odds
    (cycles : list Cycle) (feed : OddsFeed) (auth : Auth.AuthManager) :
  let pubs := episode cycles feed auth in
  (count_started (name feed) pubs <= 1)%nat /\
  started_after_odds (name feed) pubs.
Proof.
  unfold episode, start, _loop. destruct (is_running feed).
  - simpl. split.
    + rewrite count_started_clean; [lia|].
      constructor; [apply stopped_not_started|constructor].
    + apply started_after_odds_clean.
      constructor; [apply stopped_not_started|constructor].
  - set (feed0 := set_thread (set_stop feed false) (Some Alive)).
    pose proof (loop_from_started cycles true feed0 auth) as H.
    pose proof (loop_from_name cycles true feed0 auth) as Hn.
    destruct (loop_from true cycles feed0 auth) as [[f a] pubs]. simpl in *.
    destruct H as (_ & Hord & Hcount). rewrite Hn. split.
    + unfold count_started in *. rewrite filter_app, length_app.
      rewrite filter_cons_False by apply stopped_not_started. simpl. lia.
    + apply started_after_odds_snoc; [apply stopped_not_started|done].
Qed.

(** On a feed that was never started, two calls of [stop()] publish
    [feed.stopped.<source>] twice where one call publishes it once. *)
Lemma stop_twice_publishes_twice :
  ~ stop_idempotent true true (fresh_feed "betfair") /\
  snd (stop_twice true true (fresh_feed "betfair")) =
    [stopped_pub "betfair"; stopped_pub "betfair"] /\
  snd (stop true (fresh_feed "betfair")) = [stopped_pub "betfair"].
Proof. split; [|split]; [intros [=]|reflexivity|reflexivity]. Qed.

(** C9 (amended).  [stop()] is idempotent on the state of the feed: after
    a second call the stop event is still set and every other field is as
    the first call left it, the worker being recorded as finished if either
    join saw it finish; each call publishes [feed.stopped.<source>] once,
    so that two calls publish it twice. *)
Theorem stop_idempotent_on_state (joined1 joined2 : bool) (feed : OddsFeed) :
  fst (stop_twice joined1 joined2 feed) = fst (stop (joined1 || joined2) feed) /\
  fst (stop_twice joined1 joined1 feed) = fst (stop joined1 feed) /\
  _stop_event (fst (stop_twice joined1 joined2 feed)) = true /\
  set_thread (fst (stop_twice joined1 joined2 feed)) (_thread feed) =
    set_thread (fst (stop joined1 feed)) (_thread feed) /\
  snd (stop joined2 (fst (stop joined1 feed))) = [stopped_pub (name feed)] /\
  snd (stop_twice joined1 joined2 feed) =
    [stopped_pub (name feed); stopped_pub (name feed)].
Proof.
  unfold stop_twice, stop, set_thread, set_stop. simpl.
  destruct feed as [n ids cur iv st [[]|] pc lp], joined1, joined2; simpl;
    repeat split; reflexivity.
Qed.

End FeedClaims.

Section StorageFacts.
Import Storage.
Variable _data_dir : Path.
Variable locks : Path -> LockReply.
Variable mkdirs : Path -> MkdirReply.
Variable writes : Path -> WriteReply.












Lemma lookup_setdefault_append D p l gs :
  lookup_group D (setdefault_append p l gs) =
  if decide (p = D) then Some (bucket D gs ++ [l]) else lookup_group D gs.
Proof.
  unfold bucket. induction gs as [|[q g] gs IH]; simpl.
  - destruct (decide (p = D)); reflexivity.
  - destruct (decide (q = p)) as [->|Hqp]; simpl.
    + destruct (decide (p = D)); reflexivity.
    + destruct (decide (q = D)) as [->|HqD]; simpl.
      * destruct (decide (p = D)); [congruence|reflexivity].
      * exact IH.
Qed.

Lemma keys_setdefault_append p l gs :
  NoDup (fst <$> gs) -> NoDup (fst <$> setdefault_append p l gs) /\
  forall q, q ∈ fst <$> setdefault_append p l gs -> q = p \/ q ∈ fst <$> gs.
Proof.
  induction gs as [|[q g] gs IH]; simpl; intros Hnd.
  - split; [apply NoDup_singleton|]. intros q Hq.
    apply list_elem_of_singleton in Hq. auto.
  - apply NoDup_cons in Hnd as [Hq Hnd]. destruct (decide (q = p)) as [->|Hqp]; simpl.
    + split; [by apply NoDup_cons|]. auto.
    + destruct (IH Hnd) as [IH1 IH2]. split.
      * apply NoDup_cons. split; [|done]. intros Hin.
        destruct (IH2 _ Hin); [congruence|done].
      * intros r Hr. apply elem_of_cons in Hr as [->|Hr].
        -- right. apply list_elem_of_here.
        -- destruct (IH2 _ Hr); [by left|]. right. by apply list_elem_of_further.
Qed.

Lemma group_by_path_spec R : forall acc,
  NoDup (fst <$> acc) ->
  let gs := foldl (fun groups l =>
                     setdefault_append (_resolve_path _data_dir l) l groups)
                  acc R in
  NoDup (fst <$> gs) /\
  forall D, bucket D gs = bucket D acc ++ routed _data_dir D R.
Proof.
  induction R as [|l R IH]; intros acc Hnd; simpl.
  - split; [done|]. intros D. by rewrite app_nil_r.
  - destruct (keys_setdefault_append (_resolve_path _data_dir l) l acc Hnd) as [Hnd' _].
    destruct (IH _ Hnd') as [H1 H2]. split; [exact H1|].
    intros D. rewrite H2. unfold bucket at 1. rewrite lookup_setdefault_append.
    unfold routed. destruct (decide (_resolve_path _data_dir l = D)) as [He|Hne].
    + rewrite filter_cons_True by done. simpl. by rewrite <- app_assoc.
    + rewrite filter_cons_False by done. reflexivity.
Qed.

Lemma setdefault_append_nonempty p l gs :
  Forall (fun pg : Path * list ClassifiedListing => snd pg <> []) gs ->
  Forall (fun pg : Path * list ClassifiedListing => snd pg <> [])
         (setdefault_append p l gs).
Proof.
  induction 1 as [|[q g] gs Hq Hgs IH]; simpl.
  - repeat constructor. done.
  - destruct (decide (q = p)).
    + constructor; [|assumption]. simpl. intros Hg.
      apply app_eq_nil in Hg as [_ Hg]. discriminate.
    + constructor; [exact Hq|exact IH].
Qed.

Lemma group_by_path_nonempty R : forall acc,
  Forall (fun pg : Path * list ClassifiedListing => snd pg <> []) acc ->
  Forall (fun pg : Path * list ClassifiedListing => snd pg <> [])
    (foldl (fun groups l => setdefault_append (_resolve_path _data_dir l) l groups)
           acc R).
Proof.
  induction R as [|l R IH]; intros acc Hacc; simpl; [done|].
  by apply IH, setdefault_append_nonempty.
Qed.

Lemma lookup_group_elem D g gs :
  NoDup (fst <$> gs) ->
  ((D, g) ∈ gs <-> lookup_group D gs = Some g).
Proof.
  induction gs as [|[p g'] gs IH]; simpl; intros Hnd.
  - split; [intros H; by apply elem_of_nil in H|discriminate].
  - apply NoDup_cons in Hnd as [Hp Hnd]. destruct (decide (p = D)) as [->|Hne].
    + split.
      * intros H. apply elem_of_cons in H as [[= ->]|H]; [done|].
        exfalso. apply Hp. apply list_elem_of_fmap. by exists (D, g).
      * intros [= ->]. apply list_elem_of_here.
    + rewrite <- (IH Hnd). split.
      * intros H. apply elem_of_cons in H as [[= -> _]|H]; [done|done].
      * intros H. by apply list_elem_of_further.
Qed.









Lemma NoDup_fmap_filter {A B} (f : A -> B) (P : A -> Prop)
    `{!forall x, Decision (P x)} (l : list A) :
  NoDup (f <$> l) -> NoDup (f <$> filter P l).
Proof.
  induction l as [|a l IH]; simpl; [done|].
  rewrite NoDup_cons. intros [Hn Hd]. destruct (decide (P a)).
  - rewrite filter_cons_True by done. simpl. apply NoDup_cons. split; [|auto].
    intros Hin. apply Hn. apply list_elem_of_fmap in Hin as (x & -> & Hx).
    apply list_elem_of_filter in Hx as [_ Hx]. apply list_elem_of_fmap. eauto.
  - rewrite filter_cons_False by done. auto.
Qed.





Lemma setdefault_append_cons p l gs : setdefault_append p l gs <> [].
Proof. destruct gs as [|[q g] gs]; simpl; [done|]. by destruct (decide (q = p)). Qed.

Lemma group_by_path_cons R : forall acc,
  acc <> [] ->
  foldl (fun groups l => setdefault_append (_resolve_path _data_dir l) l groups)
        acc R <> [].
Proof.
  induction R as [|l R IH]; intros acc Hacc; simpl; [done|].
  apply IH, setdefault_append_cons.
Qed.


(** C10.  [save([])] returns 0 and has no effect on the file system: the
    disk is left as it is and no lock is taken, no directory made, no file
    probed, read or written; a non-empty batch, in contrast, starts with a
    lock attempt. *)
Theorem save_empty_no_effect (disk : Disk) :
  save _data_dir locks mkdirs writes [] disk = (disk, [], 0%nat) /\
  forall l ls, snd (fst (save _data_dir locks mkdirs writes (l :: ls) disk)) <> [].
Proof.
  split; [reflexivity|]. intros l ls. unfold save, group_by_path.
  pose proof (group_by_path_cons (l :: ls) [] ) as Hne. simpl in *.
  specialize (group_by_path_cons ls
    (setdefault_append (_resolve_path _data_dir l) l [])
    (setdefault_append_cons _ _ _)) as Hg.
  destruct (foldl _ _ ls) as [|[p g] gs]; [done|]. simpl.
  unfold _write_group. destruct (locks _).
  - destruct (_merge_and_write mkdirs writes p g disk) as [[d e] r].
    destruct (write_groups locks mkdirs writes gs d) as [[d2 e2] n2].
    simpl. discriminate.
  - destruct (write_groups locks mkdirs writes gs disk) as [[d2 e2] n2].
    simpl. discriminate.
  - destruct (write_groups locks mkdirs writes gs disk) as [[d2 e2] n2].
    simpl. discriminate.
Qed.

End StorageFacts.

Section StorageExamples.
Import Storage.



End StorageExamples.

Section Witnesses.

Lemma matches_glob_single_string_witness :
  Fnmatch.wildcard_match (Fnmatch.codepoints "odds.?")
                         (Fnmatch.codepoints "odds.é") /\
  ~ Fnmatch.wildcard_match (Fnmatch.codepoints "odds.?")
                           (Fnmatch.codepoints "odds.xy").
Proof.
  split.
  - apply (proj1 (matches_glob_single_string "0" Pubsub.quiet "odds.é")
                 "odds.?").
    + refine (bool_decide_unpack _ _). vm_compute. exact I.
    + reflexivity.
  - intros H.
    apply (proj1 (matches_glob_single_string "0" Pubsub.quiet "odds.xy")
                 "odds.?") in H.
    + discriminate.
    + refine (bool_decide_unpack _ _). vm_compute. exact I.
Defined.

Lemma publish_delivers_to_snapshot_witness :
  Pubsub.invocations
    (snd (fst (Pubsub.publish 7 "odds.alpha" "alpha" Pubsub.NoData
                 Pubsub.sample_bus))) =
  map (fun s => (s, Pubsub.mk_event 7 "odds.alpha" "alpha" Pubsub.NoData))
      (Pubsub._subs Pubsub.sample_bus).
Proof.
  refine (proj1 (publish_delivers_to_snapshot 7 "odds.alpha" "alpha"
                   Pubsub.NoData Pubsub.sample_bus _)).
  simpl. apply NoDup_cons. split.
  - intros H. apply list_elem_of_singleton in H. discriminate.
  - apply NoDup_singleton.
Defined.

Lemma refresh_expired_as_authenticate_all_witness :
  Auth.refresh_expired Auth.sample_manager 4000 =
  Auth.authenticate_all Auth.sample_manager false 4000.
Proof.
  refine (proj1 (refresh_expired_as_authenticate_all Auth.sample_manager 4000 _)).
  vm_compute. reflexivity.
Defined.

Lemma authenticated_clients_fresh_success_witness :
  Auth._results (fst (Auth.authenticated_clients Auth.sample_manager 4000))
    !! "betfair" =
  Some {| Auth.exchange := "betfair"; Auth.status := Auth.EXPIRED;
          Auth.authenticated_at := Some 0; Auth.error := None |}.
Proof.
  assert (Hc : Auth.consistent Auth.sample_manager).
  { split; [vm_compute; reflexivity|]. intros name r H.
    unfold Auth.sample_manager in H. cbn [Auth._results] in H.
    apply lookup_singleton_Some in H as [_ <-]. simpl. eauto. }
  destruct (authenticated_clients_fresh_success Auth.sample_manager 4000 Hc)
    as (_ & _ & Hsweep).
  refine (proj1 (Hsweep "betfair" _ _) _ 0 _ _).
  - vm_compute. reflexivity.
  - reflexivity.
  - reflexivity.
  - simpl. lia.
Defined.

End Witnesses.

(** ** The scenarios of the specification, run on the embedding *)
Section Scenarios.

(** Wildcard delivery: the handler on [odds.*] gets [odds.alpha] and
    [odds.beta], the handler on [odds.alpha] only the first. *)
Example wildcard_delivery :
  map (fun p => Pubsub.id (fst p))
      (Pubsub.invocations
         (snd (fst (Pubsub.publish 1 "odds.alpha" "alpha" Pubsub.NoData
                      Pubsub.sample_bus)))) =
    ["11111111-aaaa"; "22222222-bbbb"] /\
  map (fun p => Pubsub.id (fst p))
      (Pubsub.invocations
         (snd (fst (Pubsub.publish 2 "odds.beta" "beta" Pubsub.NoData
                      Pubsub.sample_bus)))) =
    ["11111111-aaaa"].
Proof. split; reflexivity. Qed.

(** The handler that raises is logged under the topic and the head of its
    subscription id, and the next handler still runs. *)
Example faulty_handler_logged :
  snd (fst (Pubsub.publish 1 "odds.alpha" "alpha" Pubsub.NoData
              Pubsub.sample_bus)) =
  let ev := Pubsub.mk_event 1 "odds.alpha" "alpha" Pubsub.NoData in
  [ Pubsub.Invoked {| Pubsub.id := "11111111-aaaa"; Pubsub.pattern := "odds.*";
                      Pubsub.handler := Pubsub.faulty |} ev;
    Pubsub.LogError "odds.alpha" "11111111" (Error "RuntimeError" "boom");
    Pubsub.Invoked {| Pubsub.id := "22222222-bbbb"; Pubsub.pattern := "odds.alpha";
                      Pubsub.handler := Pubsub.quiet |} ev ].
Proof. reflexivity. Qed.

(** Feed error path: [get_markets] raises on the second cycle. *)
Example feed_error_path :
  let good := {| Auth.authenticate := Auth.ReplyTrue;
                 Auth.is_authenticated := true;
                 Auth.get_markets := fun _ => Returned [] |} in
  let bad := {| Auth.authenticate := Auth.ReplyTrue;
                Auth.is_authenticated := true;
                Auth.get_markets :=
                  fun _ => Raised (Error "TimeoutError" "timed out") |} in
  let turn cl := {| Feed.clock := 0; Feed.client := cl; Feed.peers := ∅;
                    Feed.stop_requested := false |} in
  map Feed.topic
      (Feed.episode (py_repr := quoted) [turn good; turn bad; turn good]
         (Feed.fresh_feed "src") Auth.sample_manager) =
  ["odds.src"; "feed.started.src"; "feed.error.src"; "odds.src";
   "feed.stopped.src"].
Proof. vm_compute. reflexivity. Qed.

(** Expiry and refresh: past the TTL no client is ready and the record is
    EXPIRED; [refresh_expired] brings it back to SUCCESS. *)
Example expiry_and_refresh :
  snd (Auth.authenticated_clients Auth.sample_manager 4000) = Returned ∅ /\
  (o ← Auth.refresh_expired
         (fst (Auth.authenticated_clients Auth.sample_manager 4000)) 4001;
   Returned (Auth.status <$> Auth.returned_map o !! "betfair",
             Auth.invoked o)) =
  Returned (Some Auth.SUCCESS, {["betfair"]}).
Proof. split; vm_compute; reflexivity. Qed.

(** Dedup across batches: the same two records saved twice leave two
    records in the file, and the second call writes none. *)
Example dedup_across_batches :
  let batch := [Storage.sample "A"; Storage.sample "B"] in
  let once := Storage.save ["data"] Storage.free Storage.makes Storage.stores
                batch Storage.empty_disk in
  let twice := Storage.save ["data"] Storage.free Storage.makes Storage.stores
                 batch (fst (fst once)) in
  snd once = 2%nat /\ snd twice = 0%nat /\
  Storage.keys_in (fst (fst twice)) Storage.sample_path =
    [Storage.JString "A"; Storage.JString "B"].
Proof. vm_compute. repeat split; reflexivity. Qed.

(** The payload of [feed.error.<source>] is the text of the exception:
    the quoted key for the [KeyError] of a source the manager has no record
    of, the bare message for the [ValueError] of a pool without workers. *)
Example feed_error_payloads :
  let turn := {| Feed.clock := 4000; Feed.client := Auth.sample_client;
                 Feed.peers := ∅; Feed.stop_requested := false |} in
  let unknown := {| Auth._clients := ∅; Auth._token_ttl := 3600;
                    Auth._max_workers := 8; Auth._results := ∅ |} in
  let no_workers := {| Auth._clients := Auth._clients Auth.sample_manager;
                       Auth._token_ttl := 3600; Auth._max_workers := 0;
                       Auth._results := Auth._results Auth.sample_manager |} in
  map Feed.data
      (Feed.cycle_published
         (Feed.cycle (py_repr := quoted) true turn
            (Feed.fresh_feed "betfair") unknown)) =
    [Pubsub.ErrorDict "'betfair'"] /\
  map Feed.data
      (Feed.cycle_published
         (Feed.cycle (py_repr := quoted) true turn
            (Feed.fresh_feed "betfair") no_workers)) =
    [Pubsub.ErrorDict "max_workers must be greater than 0"].
Proof. split; vm_compute; reflexivity. Qed.

(** A file whose first record has a list for id is left alone, and so is a
    file that is not UTF-8; a file that is not JSON is overwritten. *)
Example unmergeable_files :
  let odd := {| Storage.files :=
                  {[Storage.sample_path :=
                      Storage.Records [{["id" := Storage.JArray "[1]"]}]]};
                Storage.dirs := ∅ |} in
  let latin := {| Storage.files :=
                    {[Storage.sample_path :=
                        Storage.Unreadable false
                          (Error "UnicodeDecodeError" "invalid start byte")]};
                  Storage.dirs := ∅ |} in
  let garbage := {| Storage.files :=
                      {[Storage.sample_path :=
                          Storage.Unreadable true
                            (Error "JSONDecodeError" "Expecting value")]};
                    Storage.dirs := ∅ |} in
  let run := Storage.save ["data"] Storage.free Storage.makes Storage.stores
               [Storage.sample "A"] in
  let at_sample disk := Storage.files disk !! Storage.sample_path in
  (snd (run odd) = 0%nat /\
   at_sample (fst (fst (run odd))) = at_sample odd) /\
  (snd (run latin) = 0%nat /\
   at_sample (fst (fst (run latin))) = at_sample latin) /\
  (snd (run garbage) = 1%nat /\
   Storage.keys_in (fst (fst (run garbage))) Storage.sample_path =
     [Storage.JString "A"]).
Proof. cbv zeta. repeat split; vm_compute; reflexivity. Qed.

(** Path parts are joined as [pathlib] joins them: a slash inside a part
    splits it, and an absolute part replaces what is before it. *)
Example path_parts_are_joined :
  let at_parts parts :=
    Storage._resolve_path ["data"]
      {| Storage.id := "A"; Storage.storage_path_parts := parts;
         Storage.payload := ∅ |} in
  at_parts ("Ford/Focus", "ST", "2024") = at_parts ("Ford", "Focus/ST", "2024") /\
  at_parts ("Ford", "/srv", "2024") = ["/"; "srv"; "2024"; "listings.json"] /\
  at_parts ("Ford", "", ".") = ["data"; "classifieds"; "Ford"; "listings.json"].
Proof. vm_compute. repeat split; reflexivity. Qed.

End Scenarios.

(* ===================================================================== *)
(** * Further properties of the bus *)
(* ===================================================================== *)

Section PubsubMore.
Import Pubsub.

Lemma filter_all {A} (P : A -> Prop) `{!forall x, Decision (P x)} (l : list A) :
  Forall P l -> filter P l = l.
Proof.
  induction 1 as [|x l Hx _ IH]; [reflexivity|].
  rewrite filter_cons_True by done. by rewrite IH.
Qed.

Lemma filter_swap {A} (b : A -> bool) (P : A -> Prop)
    `{!forall x, Decision (P x)} (l : list A) :
  List.filter b (filter P l) = filter P (List.filter b l).
Proof.
  induction l as [|x l IH]; [reflexivity|]. simpl.
  destruct (decide (P x)) as [Hp|Hp], (b x) eqn:Hb.
  - rewrite !filter_cons_True by done. simpl. rewrite Hb. by rewrite IH.
  - rewrite filter_cons_True by done. simpl. rewrite Hb. exact IH.
  - rewrite !filter_cons_False by done. exact IH.
  - rewrite filter_cons_False by done. exact IH.
Qed.

Lemma ids_not_in bus sub_id :
  sub_id ∉ map id (_subs bus) -> Forall (fun s => id s <> sub_id) (_subs bus).
Proof.
  intros Hn. apply Forall_forall. intros s Hs Heq. apply Hn. rewrite <- Heq.
  apply list_elem_of_In, in_map, list_elem_of_In. exact Hs.
Qed.

Lemma foldl_apply_call_queue calls : forall bus,
  _queue (foldl apply_call bus calls) = _queue bus.
Proof.
  induction calls as [|c calls IH]; intros bus; simpl; [done|].
  rewrite IH. by destruct c.
Qed.

Lemma _delivery_loop_take n : forall bus,
  snd (_delivery_loop n bus) =
    concat (map (fun p => report (fst p) (snd p)) (take n (_queue bus))) /\
  _queue (fst (_delivery_loop n bus)) = drop n (_queue bus).
Proof.
  induction n as [|n IH]; intros bus; simpl; [done|].
  unfold _delivery_step. destruct (_queue bus) as [|[s ev] q] eqn:Hq.
  - specialize (IH bus). rewrite Hq in IH.
    destruct (_delivery_loop n bus) as [b2 e2]. simpl in *.
    destruct IH as [-> ->]. by destruct n.
  - rewrite _invoke_spec.
    match goal with |- context [_delivery_loop n ?b] => specialize (IH b) end.
    rewrite foldl_apply_call_queue in IH. simpl in IH.
    destruct (_delivery_loop n _) as [b2 e2]. simpl in *.
    destruct IH as [-> ->]. done.
Qed.

Lemma invocations_queue (q : list (Subscription * Event)) :
  invocations (concat (map (fun p => report (fst p) (snd p)) q)) = q.
Proof.
  induction q as [|[s e] q IH]; simpl; [reflexivity|].
  rewrite invocations_app, invocations_report, IH. reflexivity.
Qed.

Lemma publish_sync_invocations now T exch d bus :
  _async bus = false ->
  invocations (snd (fst (publish now T exch d bus))) =
  map (fun s => (s, mk_event now T exch d)) (snapshot bus T).
Proof.
  intros Ha. unfold publish. rewrite Ha.
  destruct (dispatch_spec (snapshot bus T) (mk_event now T exch d) bus) as [_ ->].
  apply invocations_reports.
Qed.

Lemma publish_async_queue now T exch d bus :
  _async bus = true ->
  publish now T exch d bus =
  ({| _subs := _subs bus; _async := true;
      _queue := _queue bus ++
                map (fun s => (s, mk_event now T exch d)) (snapshot bus T) |},
   [], Returned tt).
Proof. intros Ha. unfold publish. rewrite Ha. reflexivity. Qed.

(** X1.  [unsubscribe] removes exactly the subscriptions that carry the id
    of its argument: it does nothing when no subscription has that id, it
    undoes a [subscribe] whose id was fresh, and a second call changes
    nothing more. *)
Theorem unsubscribe_removes_by_id (bus : EventBus) (sub : Subscription) :
  (forall s, s ∈ _subs (unsubscribe sub bus) <->
             s ∈ _subs bus /\ id s <> id sub) /\
  (id sub ∉ map id (_subs bus) -> unsubscribe sub bus = bus) /\
  (forall uuid pat h,
     uuid ∉ map id (_subs bus) ->
     unsubscribe (fst (subscribe uuid pat h bus))
                 (snd (subscribe uuid pat h bus)) = bus) /\
  unsubscribe sub (unsubscribe sub bus) = unsubscribe sub bus.
Proof.
  unfold unsubscribe, unsubscribe_id. destruct bus as [subs a q]. simpl.
  split; [|split; [|split]].
  - intros s. rewrite list_elem_of_filter. tauto.
  - intros Hn. f_equal. apply filter_all.
    exact (ids_not_in {| _subs := subs; _async := a; _queue := q |} _ Hn).
  - intros uuid pat h Hn. f_equal. rewrite filter_app.
    rewrite filter_cons_False by (simpl; tauto). rewrite filter_nil, app_nil_r.
    apply filter_all.
    exact (ids_not_in {| _subs := subs; _async := a; _queue := q |} _ Hn).
  - f_equal. apply filter_all. apply Forall_forall. intros s Hs.
    apply list_elem_of_filter in Hs. tauto.
Qed.

(** X2.  The ids of the subscription list stay pairwise distinct: a new
    bus has none, [subscribe] with an id not yet in use keeps them
    distinct, and so does [unsubscribe]. *)
Theorem subscription_ids_stay_distinct (bus : EventBus) :
  (forall a, NoDup (map id (_subs (__init__ a)))) /\
  (forall uuid pat h,
     NoDup (map id (_subs bus)) -> uuid ∉ map id (_subs bus) ->
     NoDup (map id (_subs (snd (subscribe uuid pat h bus))))) /\
  (forall sub,
     NoDup (map id (_subs bus)) ->
     NoDup (map id (_subs (unsubscribe sub bus)))).
Proof.
  split; [|split].
  - intros a. simpl. constructor.
  - intros uuid pat h Hnd Hn. simpl. rewrite map_app. simpl.
    apply NoDup_app. split; [done|]. split; [|apply NoDup_singleton].
    intros x Hx Hx'. apply list_elem_of_singleton in Hx' as ->. done.
  - intros sub Hnd. simpl. by apply (NoDup_fmap_filter id).
Qed.

Lemma filter_pairs (ev : Event) (sub_id : string) (l : list Subscription) :
  filter (fun p : Subscription * Event => id (fst p) <> sub_id)
         (map (fun s => (s, ev)) l) =
  map (fun s => (s, ev)) (filter (fun s => id s <> sub_id) l).
Proof.
  induction l as [|s l IH]; [reflexivity|]. simpl.
  destruct (decide (id s = sub_id)) as [He|Hne].
  - rewrite !filter_cons_False by (simpl; tauto). exact IH.
  - rewrite !filter_cons_True by done. simpl. by rewrite IH.
Qed.

(** X3.  A subscription made by [subscribe] is the last of the list: on the
    next [publish] it is matched after all earlier subscriptions, and only
    if its own pattern matches the topic; the deliveries to the earlier
    subscriptions are what they were.  In synchronous mode its handler is
    therefore called last. *)
Theorem publish_after_subscribe
    (now : Z) (T exch : string) (d : Payload)
    (uuid pat : string) (h : Handler) (bus : EventBus) :
  let new := fst (subscribe uuid pat h bus) in
  let bus' := snd (subscribe uuid pat h bus) in
  let last := if Fnmatch.fnmatch T pat then [new] else [] in
  snapshot bus' T = snapshot bus T ++ last /\
  (_async bus = false ->
   invocations (snd (fst (publish now T exch d bus'))) =
   invocations (snd (fst (publish now T exch d bus))) ++
   map (fun s => (s, mk_event now T exch d)) last).
Proof.
  intros new bus' last.
  assert (Hs : snapshot bus' T = snapshot bus T ++ last).
  { subst bus' last new. unfold snapshot. simpl. rewrite List.filter_app. simpl.
    unfold matches at 2. simpl. by destruct (Fnmatch.fnmatch T pat). }
  split; [exact Hs|]. intros Ha.
  rewrite !publish_sync_invocations by done. by rewrite Hs, map_app.
Qed.

(** X4.  After [unsubscribe(sub)] a [publish] delivers what it would have
    delivered otherwise, less the subscriptions that carry the id of
    [sub]: as handler calls in synchronous mode, as queue entries in
    asynchronous mode. *)
Theorem publish_after_unsubscribe
    (now : Z) (T exch : string) (d : Payload)
    (sub : Subscription) (bus : EventBus) :
  let keep := fun p : Subscription * Event => id (fst p) <> id sub in
  snapshot (unsubscribe sub bus) T =
    filter (fun s => id s <> id sub) (snapshot bus T) /\
  (_async bus = false ->
   invocations (snd (fst (publish now T exch d (unsubscribe sub bus)))) =
   filter keep (invocations (snd (fst (publish now T exch d bus))))) /\
  (_async bus = true ->
   drop (length (_queue bus))
        (_queue (fst (fst (publish now T exch d (unsubscribe sub bus))))) =
   filter keep
     (drop (length (_queue bus))
           (_queue (fst (fst (publish now T exch d bus)))))).
Proof.
  intros keep.
  assert (Hs : snapshot (unsubscribe sub bus) T =
               filter (fun s => id s <> id sub) (snapshot bus T)).
  { unfold snapshot, unsubscribe, unsubscribe_id. simpl. apply filter_swap. }
  split; [exact Hs|]. split; intros Ha.
  - rewrite !publish_sync_invocations by done. rewrite Hs. subst keep.
    by rewrite filter_pairs.
  - rewrite !publish_async_queue by done. simpl. rewrite !drop_app_length.
    rewrite Hs. subst keep. by rewrite filter_pairs.
Qed.

(** X5.  In asynchronous mode [publish] calls no handler and leaves the
    subscription list alone; two publications are queued one behind the
    other, behind what was queued before, and the delivery loop calls the
    handlers in that order. *)
Theorem async_delivery_is_fifo
    (t1 t2 : Z) (T1 T2 e1 e2 : string) (d1 d2 : Payload) (bus : EventBus) :
  _async bus = true ->
  let out1 := publish t1 T1 e1 d1 bus in
  let out2 := publish t2 T2 e2 d2 (fst (fst out1)) in
  let bus2 := fst (fst out2) in
  snd (fst out1) = [] /\ snd (fst out2) = [] /\
  _subs bus2 = _subs bus /\
  invocations (snd (_delivery_loop (length (_queue bus2)) bus2)) =
    _queue bus ++
    map (fun s => (s, mk_event t1 T1 e1 d1)) (snapshot bus T1) ++
    map (fun s => (s, mk_event t2 T2 e2 d2)) (snapshot bus T2).
Proof.
  intros Ha out1 out2 bus2. subst bus2 out2 out1.
  rewrite (publish_async_queue t1 T1 e1 d1 bus Ha). cbn [fst snd].
  rewrite publish_async_queue by reflexivity. cbn [fst snd _subs _queue].
  repeat split.
  match goal with |- context [_delivery_loop (length ?q) ?b] =>
    destruct (_delivery_loop_take (length q) b) as [-> _] end.
  simpl. rewrite firstn_all, invocations_queue, <- app_assoc. reflexivity.
Qed.

(** X6.  Each turn of the delivery loop takes one pair off the head of the
    queue and calls its handler: [n] turns call the handlers of the first
    [n] queued pairs, in order, and leave the rest queued.  A pair that is
    queued is delivered even if its subscription has been removed by
    [unsubscribe] in between. *)
Theorem delivery_loop_takes_queue_in_order (n : nat) (bus : EventBus) :
  invocations (snd (_delivery_loop n bus)) = take n (_queue bus) /\
  _queue (fst (_delivery_loop n bus)) = drop n (_queue bus) /\
  forall sub,
    invocations (snd (_delivery_loop n (unsubscribe sub bus))) =
    take n (_queue bus).
Proof.
  split; [|split].
  - destruct (_delivery_loop_take n bus) as [-> _]. apply invocations_queue.
  - apply _delivery_loop_take.
  - intros sub. destruct (_delivery_loop_take n (unsubscribe sub bus)) as [-> _].
    apply invocations_queue.
Qed.

End PubsubMore.

(* ===================================================================== *)
(** * Further properties of the authentication manager *)
(* ===================================================================== *)

Section AuthMore.
Import Auth.

Lemma select_targets_force m now :
  select_targets m true now = Returned (_clients m).
Proof.
  unfold select_targets. generalize (_clients m) as cs. intros cs.
  apply (map_fold_weak_ind (fun r cs => r = Returned cs)); [done|].
  intros name c cs' acc _ ->. reflexivity.
Qed.

(** A forced call that returns has replaced the record of every client. *)
Lemma authenticate_all_force_results m now o :
  authenticate_all m true now = Returned o ->
  invoked o = dom (_clients m) /\
  _clients (manager o) = _clients m /\
  _token_ttl (manager o) = _token_ttl m /\
  _results (manager o) =
    map_imap (fun name client => Some (_auth_one now name client)) (_clients m)
    ∪ _results m.
Proof.
  unfold authenticate_all. rewrite select_targets_force. simpl.
  repeat case_bool_decide; intros [= <-]; simpl.
  - match goal with H : _clients m = ∅ |- _ => rewrite H end.
    rewrite map_imap_empty, dom_empty_L. by rewrite (left_id_L ∅ (∪)).
  - done.
Qed.

Lemma authenticate_all_force_returns m now :
  0 < _max_workers m -> exists o, authenticate_all m true now = Returned o.
Proof.
  intros Hw. unfold authenticate_all. rewrite select_targets_force. simpl.
  case_bool_decide as He; [eauto|].
  rewrite bool_decide_eq_false_2; [eauto|].
  apply map_size_non_empty_iff in He. lia.
Qed.

(** The first client without a record ends the selection of targets. *)
Lemma select_targets_missing m now :
  match select_targets m false now with
  | Returned _ => forall n, n ∈ dom (_clients m) -> is_Some (_results m !! n)
  | Raised exc =>
      exists n, n ∈ dom (_clients m) /\ _results m !! n = None /\
                exc = KeyError n
  end.
Proof.
  unfold select_targets. generalize (_clients m) as cs. intros cs.
  apply (map_fold_weak_ind
    (fun r cs =>
       match r with
       | Returned _ => forall n, n ∈ dom cs -> is_Some (_results m !! n)
       | Raised exc =>
           exists n, n ∈ dom cs /\ _results m !! n = None /\
                     exc = KeyError n
       end)).
  - intros n Hn. rewrite dom_empty_L in Hn. by apply not_elem_of_empty in Hn.
  - intros name c cs' acc _ IH. destruct acc as [ts|exc]; simpl.
    + unfold _needs_auth. destruct (_results m !! name) as [r|] eqn:Hr; simpl.
      * repeat case_bool_decide; simpl; try destruct (_is_expired m now r); simpl;
          intros n Hn; rewrite dom_insert_L in Hn;
          (apply elem_of_union in Hn as [Hn|Hn];
           [apply elem_of_singleton in Hn as ->; rewrite Hr; eauto|by apply IH]).
      * exists name. rewrite dom_insert_L. split; [|done].
        apply elem_of_union_l. by apply elem_of_singleton.
    + destruct IH as (n & Hn & Hr & ->). exists n. rewrite dom_insert_L.
      split; [by apply elem_of_union_r|done].
Qed.

(** X7.  The manager keeps its records in step with its clients: [__init__]
    makes one PENDING record per client, and [authenticate_all],
    [refresh_expired], [authenticated_clients] and [status] leave one
    record per client, every SUCCESS record carrying the time of its
    authentication. *)
Theorem manager_stays_consistent (m : AuthManager) :
  (forall clients ttl workers, consistent (__init__ clients ttl workers)) /\
  (forall force now o,
     consistent m -> authenticate_all m force now = Returned o ->
     consistent (manager o)) /\
  (forall now o,
     consistent m -> refresh_expired m now = Returned o ->
     consistent (manager o)) /\
  (forall now,
     consistent m ->
     consistent (fst (authenticated_clients m now)) /\
     consistent (fst (status_snapshot m now))).
Proof.
  split; [|split; [|split]].
  - apply consistent_init.
  - intros force now o. apply consistent_authenticate_all.
  - intros now o Hc. unfold refresh_expired. case_bool_decide.
    + by intros [= <-].
    + by apply consistent_authenticate_all.
  - intros now Hc. split; apply consistent_mark_expired, Hc.
Qed.

(** X8.  [authenticate_all(force=True)] with a positive pool size calls
    [authenticate()] on every client, whatever the state of its session,
    and stores the outcome of each call under the client's name; records
    of other names are left as they were. *)
Theorem authenticate_all_force_calls_everyone (m : AuthManager) (now : Z) :
  0 < _max_workers m ->
  exists o,
    authenticate_all m true now = Returned o /\
    invoked o = dom (_clients m) /\
    (forall name client,
       _clients m !! name = Some client ->
       returned_map o !! name = Some (_auth_one now name client)) /\
    (forall name,
       _clients m !! name = None ->
       returned_map o !! name = _results m !! name).
Proof.
  intros Hw. destruct (authenticate_all_force_returns m now Hw) as [o Ho].
  destruct (authenticate_all_force_results m now o Ho) as (Hi & _ & _ & Hr).
  exists o. split; [done|]. split; [done|]. unfold returned_map. rewrite Hr.
  split; intros name.
  - intros client Hc. rewrite lookup_union, map_lookup_imap, Hc. simpl.
    by destruct (_results m !! name).
  - intros Hc. rewrite lookup_union, map_lookup_imap, Hc. simpl.
    by destruct (_results m !! name).
Qed.

(** X9.  With one record per client and no stale record,
    [authenticate_all(force=False)] calls no adapter and returns the
    manager's records as they are, whatever the pool size. *)
Theorem authenticate_all_nothing_stale (m : AuthManager) (now : Z) :
  dom (_clients m) = dom (_results m) ->
  stale_names m now = ∅ ->
  authenticate_all m false now = Returned {| manager := m; invoked := ∅ |}.
Proof.
  intros Hdom Hst. unfold authenticate_all.
  rewrite select_targets_noforce by (rewrite Hdom; done). simpl.
  pose proof (targets_dom m now Hdom) as Hts. rewrite Hst in Hts.
  apply dom_empty_iff_L in Hts. rewrite Hts.
  by rewrite bool_decide_eq_true_2.
Qed.

(** X10.  A manager built with [max_workers <= 0] cannot authenticate: as
    soon as there is a client to call, forced or stale, the thread pool
    refuses its size and [authenticate_all] raises [ValueError]; no record
    is changed. *)
Theorem authenticate_all_needs_workers (m : AuthManager) (now : Z) :
  _max_workers m <= 0 ->
  (_clients m <> ∅ ->
   authenticate_all m true now =
   Raised (Error "ValueError" "max_workers must be greater than 0")) /\
  (dom (_clients m) = dom (_results m) -> stale_names m now <> ∅ ->
   authenticate_all m false now =
   Raised (Error "ValueError" "max_workers must be greater than 0")).
Proof.
  intros Hw. split.
  - intros Hne. unfold authenticate_all. rewrite select_targets_force. simpl.
    rewrite bool_decide_eq_false_2 by done.
    rewrite bool_decide_eq_true_2; [done|]. lia.
  - intros Hdom Hst. unfold authenticate_all.
    rewrite select_targets_noforce by (rewrite Hdom; done). simpl.
    pose proof (targets_dom m now Hdom) as Hts.
    rewrite bool_decide_eq_false_2.
    + rewrite bool_decide_eq_true_2; [done|]. lia.
    + intros He. rewrite He, dom_empty_L in Hts. congruence.
Qed.

(** X11.  A client without a record (one added to the clients dict after
    the manager was built) makes [authenticate_all(force=False)] raise
    [KeyError] for such a name, before any adapter is called. *)
Theorem authenticate_all_unknown_client (m : AuthManager) (now : Z) :
  (exists name, name ∈ dom (_clients m) /\ _results m !! name = None) ->
  exists missing,
    missing ∈ dom (_clients m) /\ _results m !! missing = None /\
    authenticate_all m false now = Raised (KeyError missing).
Proof.
  intros (name & Hin & Hnone). unfold authenticate_all.
  pose proof (select_targets_missing m now) as H.
  destruct (select_targets m false now) as [ts|exc]; simpl.
  - destruct (H name Hin) as [r Hr]. congruence.
  - destruct H as (n & Hn & Hr & ->). eauto.
Qed.

(** X12.  After [authenticate_all(force=True)] at time [t] on a consistent
    manager, and until the sessions are [token_ttl] old,
    [authenticated_clients()] returns exactly the clients whose
    [authenticate()] returned true. *)
Theorem fresh_sessions_are_ready (m : AuthManager) (t t' : Z) (o : Outcome) :
  consistent m ->
  authenticate_all m true t = Returned o ->
  t <= t' < t + _token_ttl m ->
  exists ready,
    snd (authenticated_clients (manager o) t') = Returned ready /\
    forall name client,
      ready !! name = Some client <->
      _clients m !! name = Some client /\ authenticate client = ReplyTrue.
Proof.
  intros [Hdom _] Ho Ht.
  destruct (authenticate_all_force_results m t o Ho) as (_ & Hc & Httl & Hr).
  assert (Hlook : forall name,
            _results (manager o) !! name =
            _auth_one t name <$> _clients m !! name).
  { intros name. rewrite Hr, lookup_union, map_lookup_imap.
    destruct (_clients m !! name) as [c|] eqn:Ec; simpl.
    - by destruct (_results m !! name).
    - apply not_elem_of_dom in Ec. rewrite Hdom in Ec.
      apply not_elem_of_dom in Ec. by rewrite Ec. }
  exists (ready_of (_mark_expired (manager o) t')). split.
  - unfold authenticated_clients. cbn [snd].
    apply (ready_fold (_mark_expired (manager o) t')).
    rewrite _mark_expired_dom.
    change (_clients (_mark_expired (manager o) t')) with (_clients (manager o)).
    rewrite Hc. intros name Hin. apply elem_of_dom in Hin as [r Hin].
    rewrite Hlook in Hin. apply elem_of_dom.
    destruct (_clients m !! name); [eauto|discriminate].
  - intros name client. unfold ready_of.
    rewrite map_lookup_imap, _mark_expired_lookup, Hlook.
    change (_clients (_mark_expired (manager o) t')) with (_clients (manager o)).
    rewrite Hc. destruct (_clients m !! name) as [c|] eqn:Ec; simpl.
    + unfold _auth_one. destruct (authenticate c) eqn:Ea; simpl.
      * unfold _is_expired. simpl. rewrite Httl.
        assert ((t' - t >=? _token_ttl m) = false) as ->
          by (rewrite Z.geb_leb; apply Z.leb_gt; lia).
        simpl. split.
        -- intros [= <-]. done.
        -- intros [[= <-] _]. done.
      * split; [discriminate|]. intros [[= <-] Hx]. congruence.
      * split; [discriminate|]. intros [[= <-] Hx]. congruence.
    + split; [discriminate|]. intros [[=] _].
Qed.

(** X13.  The expiry sweep only moves forward in time: a sweep at [t1]
    followed by a sweep at a later [t2] leaves the manager as one sweep at
    [t2] does; in particular a second sweep at the same time changes
    nothing. *)
Theorem sweep_absorbs_earlier_sweep (m : AuthManager) (t1 t2 : Z) :
  t1 <= t2 ->
  _mark_expired (_mark_expired m t1) t2 = _mark_expired m t2.
Proof.
  intros Hle. unfold _mark_expired at 1 3. unfold with_results. simpl.
  f_equal. apply map_eq. intros name.
  rewrite !map_lookup_imap.
  destruct (_results m !! name) as [r|]; simpl; [|done].
  f_equal. unfold _is_expired. simpl.
  destruct r as [e st [a|] er]; simpl.
  - destruct (bool_decide (st = SUCCESS)) eqn:Hs; simpl; [|by rewrite Hs].
    destruct (t1 - a >=? _token_ttl m) eqn:H1; simpl.
    + assert ((t2 - a >=? _token_ttl m) = true) as ->.
      { apply Z.geb_le. apply Z.geb_le in H1. lia. }
      done.
    + by rewrite Hs.
  - destruct (bool_decide (st = SUCCESS)) eqn:Hs; simpl; by rewrite Hs.
Qed.

End AuthMore.

(* ===================================================================== *)
(** * Further properties of the poll feed *)
(* ===================================================================== *)

Section FeedMore.
Import Feed.
Context {py_repr : PyRepr}.

Lemma loop_from_stopped fr cycles feed auth :
  _stop_event feed = true -> loop_from fr cycles feed auth = (feed, auth, []).
Proof. intros Hs. destruct cycles; simpl; [done|]. by rewrite Hs. Qed.

Lemma cycle_stop fr c feed auth :
  _stop_event (cycle_feed (cycle fr c feed auth)) =
  _stop_event feed || stop_requested c.
Proof.
  unfold cycle. destruct (poll_result _); simpl; by rewrite _poll_stop.
Qed.

(** X14.  The worker looks at the stop event before every cycle: with the
    event set it polls nothing, and once [stop()] has been called by the
    end of a cycle, that cycle is its last, whatever would have come. *)
Theorem loop_ends_at_stop_request
    (first_run : bool) (pre : list Cycle) (c : Cycle) (post : list Cycle)
    (feed : OddsFeed) (auth : Auth.AuthManager) :
  stop_requested c = true ->
  loop_from first_run (pre ++ c :: post) feed auth =
  loop_from first_run (pre ++ [c]) feed auth /\
  (_stop_event feed = true ->
   loop_from first_run (pre ++ c :: post) feed auth = (feed, auth, [])).
Proof.
  intros Hc. split; [|apply loop_from_stopped].
  revert first_run feed auth.
  induction pre as [|x pre IH]; intros fr feed auth; simpl.
  - destruct (_stop_event feed) eqn:Hs; [done|].
    rewrite loop_from_stopped
      by (rewrite cycle_stop, Hc; apply orb_true_r).
    reflexivity.
  - destruct (_stop_event feed); [done|]. by rewrite IH.
Qed.

Lemma _poll_count_step now cl feed auth :
  _poll_count (poll_feed (_poll now cl feed auth)) =
  _poll_count feed +
  match poll_result (_poll now cl feed auth) with
  | Returned _ => 1
  | Raised _ => 0
  end.
Proof.
  unfold _poll. destruct (ensure_session now cl feed auth) as [a [[]|e]]; simpl; [|lia].
  destruct (Auth.get_markets cl _); simpl; lia.
Qed.

Lemma cycle_counts fr c feed auth :
  let o := cycle fr c feed auth in
  _poll_count (cycle_feed o) =
  _poll_count feed +
  Z.of_nat (length (filter (fun p => topic p = odds_topic (name feed))
                           (cycle_published o))).
Proof.
  intros o. pose proof (cycle_cases fr c feed auth) as Hc. fold o in Hc.
  assert (Hp : _poll_count (cycle_feed o) =
               _poll_count feed +
               match cycle_polled o with Returned _ => 1 | Raised _ => 0 end).
  { subst o. unfold cycle.
    pose proof (_poll_count_step (clock c) (client c) feed (adapters feed c auth)) as H.
    destruct (poll_result _); simpl in *; exact H. }
  rewrite Hp.
  destruct Hc as [(exc & -> & -> & _)|(ms & -> & _ & -> & _)].
  - rewrite filter_cons_False by discriminate. simpl. lia.
  - rewrite filter_cons_True by done. destruct fr.
    + rewrite filter_cons_False by discriminate. simpl. lia.
    + simpl. lia.
Qed.

(** X15.  [_poll_count] counts the snapshots published: over any run of
    the worker it grows by the number of [odds.<source>] publications of
    that run, failed cycles leaving it alone. *)
Theorem poll_count_counts_snapshots
    (first_run : bool) (cycles : list Cycle)
    (feed : OddsFeed) (auth : Auth.AuthManager) :
  let out := loop_from first_run cycles feed auth in
  _poll_count (fst (fst out)) =
  _poll_count feed +
  Z.of_nat (length (filter (fun p => topic p = odds_topic (name feed))
                           (snd out))).
Proof.
  revert first_run feed auth.
  induction cycles as [|c rest IH]; intros fr feed auth; simpl; [lia|].
  destruct (_stop_event feed); simpl; [lia|].
  pose proof (cycle_counts fr c feed auth) as Hc. simpl in Hc.
  pose proof (cycle_name fr c feed auth) as Hn.
  specialize (IH (cycle_first_run (cycle fr c feed auth))
                 (cycle_feed (cycle fr c feed auth))
                 (cycle_auth (cycle fr c feed auth))).
  destruct (loop_from _ rest _ _) as [[f a] pubs]. simpl in *.
  rewrite IH, Hc, Hn, filter_app, length_app. lia.
Qed.

(** X16.  [start()] after [stop()]: the feed is relaunched, with the stop
    event cleared, unless the worker was alive and the join of [stop()]
    timed out; in that case [start()] changes nothing and the stop event
    stays set.  A second [start()] in a row is refused. *)
Theorem restart_needs_finished_worker (joined : bool) (feed : OddsFeed) :
  let stopped := fst (stop joined feed) in
  snd (start stopped) = negb (is_running feed && negb joined) /\
  (snd (start stopped) = false ->
   fst (start stopped) = stopped /\ _stop_event stopped = true) /\
  (snd (start stopped) = true ->
   _stop_event (fst (start stopped)) = false /\
   is_running (fst (start stopped)) = true) /\
  start (fst (start feed)) = (fst (start feed), false).
Proof.
  unfold start, stop, is_running, set_thread, set_stop.
  destruct feed as [n ids cur iv st [[]|] pc lp], joined; simpl;
    repeat split; try reflexivity; discriminate.
Qed.

(** With one record per client and a positive pool size, [refresh_expired]
    returns, having replaced the stale records and no other. *)
Lemma refresh_expired_returns (m : Auth.AuthManager) (now : Z) :
  dom (Auth._clients m) = dom (Auth._results m) ->
  0 < Auth._max_workers m ->
  exists o,
    Auth.refresh_expired m now = Returned o /\
    forall n,
      Auth.returned_map o !! n =
      if bool_decide (n ∈ Auth.stale_names m now)
      then Auth._auth_one now n <$> Auth._clients m !! n
      else Auth._results m !! n.
Proof.
  intros Hdom Hw. unfold Auth.refresh_expired.
  pose proof (targets_dom m now Hdom) as Hts.
  case_bool_decide as Hst.
  - eexists. split; [reflexivity|]. intros n. unfold Auth.returned_map. simpl.
    rewrite bool_decide_eq_false_2; [done|]. rewrite Hst. apply not_elem_of_empty.
  - unfold Auth.authenticate_all.
    rewrite select_targets_noforce by (rewrite Hdom; done). simpl.
    rewrite bool_decide_eq_false_2
      by (intros He; rewrite He, dom_empty_L in Hts; congruence).
    rewrite bool_decide_eq_false_2.
    2:{ assert (size (filter (Auth.due m now) (Auth._clients m)) <> 0%nat); [|lia].
        apply map_size_non_empty_iff. intros He.
        rewrite He, dom_empty_L in Hts. congruence. }
    eexists. split; [reflexivity|]. intros n. unfold Auth.returned_map. simpl.
    rewrite lookup_union, map_lookup_imap, <- Hts.
    case_bool_decide as Hin.
    + apply elem_of_dom in Hin as [c Hc]. rewrite Hc. simpl.
      apply map_lookup_filter_Some in Hc as [-> _]. simpl.
      by destruct (Auth._results m !! n).
    + apply not_elem_of_dom in Hin. rewrite Hin. simpl.
      by destruct (Auth._results m !! n).
Qed.

Lemma _poll_after_session now cl feed auth a :
  ensure_session now cl feed auth = (a, Returned tt) ->
  poll_auth (_poll now cl feed auth) = a /\
  poll_result (_poll now cl feed auth) =
  match Auth.get_markets cl (_event_type_ids feed) with
  | Returned _ => Returned tt
  | Raised exc => Raised exc
  end.
Proof.
  intros He. unfold _poll. rewrite He.
  destruct (Auth.get_markets cl _); simpl; auto.
Qed.

Lemma _poll_no_session now cl feed auth a exc :
  ensure_session now cl feed auth = (a, Raised exc) ->
  poll_auth (_poll now cl feed auth) = a /\
  poll_result (_poll now cl feed auth) = Raised exc /\
  poll_published (_poll now cl feed auth) = [].
Proof. intros He. unfold _poll. rewrite He. auto. Qed.

(** X17.  A poll that finds its adapter unauthenticated and the manager's
    record of the source stale re-authenticates the source through the
    manager: the record becomes the outcome of [authenticate()]; if the
    call returned true the poll goes on to [get_markets], otherwise it
    raises [re-auth failed: <error>] and publishes nothing. *)
Theorem poll_reauthenticates_stale_session
    (now : Z) (client : Auth.ExchangeClient) (feed : OddsFeed)
    (auth : Auth.AuthManager) (r : Auth.AuthResult) :
  Auth.is_authenticated client = false ->
  dom (Auth._clients auth) = dom (Auth._results auth) ->
  0 < Auth._max_workers auth ->
  Auth._clients auth !! name feed = Some client ->
  Auth._results auth !! name feed = Some r ->
  Auth.stale auth now r = true ->
  let p := _poll now client feed auth in
  Auth._results (poll_auth p) !! name feed =
    Some (Auth._auth_one now (name feed) client) /\
  match Auth.authenticate client with
  | Auth.ReplyTrue =>
      poll_result p =
      match Auth.get_markets client (_event_type_ids feed) with
      | Returned _ => Returned tt
      | Raised exc => Raised exc
      end
  | Auth.ReplyFalse =>
      poll_result p =
        Raised (Error "RuntimeError"
                  "re-auth failed: authenticate() returned False") /\
      poll_published p = []
  | Auth.ReplyRaises exc =>
      poll_result p =
        Raised (Error "RuntimeError" ("re-auth failed: " +:+ exc)) /\
      poll_published p = []
  end.
Proof.
  intros Hna Hdom Hw Hc Hr Hs p.
  destruct (refresh_expired_returns auth now Hdom Hw) as (o & Ho & Hlook).
  specialize (Hlook (name feed)).
  rewrite bool_decide_eq_true_2 in Hlook
    by (apply stale_names_elem; eauto).
  rewrite Hc in Hlook. simpl in Hlook.
  assert (He : ensure_session now client feed auth =
               (Auth.manager o,
                if Auth.ok (Auth._auth_one now (name feed) client)
                then Returned tt
                else Raised (Error "RuntimeError" ("re-auth failed: " +:+
                             fmt (Auth.error (Auth._auth_one now (name feed) client)))))).
  { unfold ensure_session. rewrite Hna, Ho, Hlook. reflexivity. }
  split.
  - subst p. unfold Auth._auth_one in He.
    destruct (Auth.authenticate client); simpl in He.
    + by destruct (_poll_after_session _ _ _ _ _ He) as [-> _].
    + by destruct (_poll_no_session _ _ _ _ _ _ He) as [-> _].
    + by destruct (_poll_no_session _ _ _ _ _ _ He) as [-> _].
  - subst p. unfold Auth._auth_one in He.
    destruct (Auth.authenticate client); simpl in He.
    + by destruct (_poll_after_session _ _ _ _ _ He) as [_ ->].
    + by destruct (_poll_no_session _ _ _ _ _ _ He) as (_ & -> & ->).
    + by destruct (_poll_no_session _ _ _ _ _ _ He) as (_ & -> & ->).
Qed.

(** X18.  The session check relies on the manager's record, not on the
    adapter: when the adapter reports no session but the record of the
    source is SUCCESS and within the TTL, the record is left as it is (the
    source is not re-authenticated) and the poll goes on to
    [get_markets]. *)
Theorem poll_trusts_fresh_record
    (now : Z) (client : Auth.ExchangeClient) (feed : OddsFeed)
    (auth : Auth.AuthManager) (r : Auth.AuthResult) :
  Auth.is_authenticated client = false ->
  dom (Auth._clients auth) = dom (Auth._results auth) ->
  0 < Auth._max_workers auth ->
  Auth._results auth !! name feed = Some r ->
  Auth.stale auth now r = false ->
  let p := _poll now client feed auth in
  Auth._results (poll_auth p) !! name feed = Some r /\
  poll_result p =
    match Auth.get_markets client (_event_type_ids feed) with
    | Returned _ => Returned tt
    | Raised exc => Raised exc
    end.
Proof.
  intros Hna Hdom Hw Hr Hs p.
  destruct (refresh_expired_returns auth now Hdom Hw) as (o & Ho & Hlook).
  specialize (Hlook (name feed)).
  rewrite bool_decide_eq_false_2 in Hlook.
  2:{ rewrite stale_names_elem. intros (r' & Hr' & Hs'). congruence. }
  assert (Hok : Auth.ok r = true).
  { unfold Auth.stale in Hs. apply orb_false_iff in Hs as [Hs _].
    unfold Auth.ok. by destruct (bool_decide (Auth.status r = Auth.SUCCESS)). }
  assert (He : ensure_session now client feed auth = (Auth.manager o, Returned tt)).
  { unfold ensure_session. rewrite Hna, Ho, Hlook, Hr, Hok. reflexivity. }
  subst p. destruct (_poll_after_session _ _ _ _ _ He) as [-> ->].
  split; [|done]. unfold Auth.returned_map in Hlook. by rewrite Hlook.
Qed.

End FeedMore.

(* ===================================================================== *)
(** * Further properties of the file store *)
(* ===================================================================== *)

Section StorageMore.
Import Storage.
Variable _data_dir : Path.
Variable locks : Path -> LockReply.
Variable mkdirs : Path -> MkdirReply.
Variable writes : Path -> WriteReply.



(** X20.  The grouping step of [save] partitions the batch by destination:
    the groups have pairwise distinct paths, none is empty, the group of a
    path holds exactly the records of the batch routed to it, in the order
    of the batch, and every record of the batch is in the group of its
    path. *)
Theorem group_by_path_partitions (R : list ClassifiedListing) :
  let gs := group_by_path _data_dir R in
  NoDup (fst <$> gs) /\
  (forall p g, (p, g) ∈ gs -> g <> [] /\ g = routed _data_dir p R) /\
  (forall l, l ∈ R ->
     exists g, (_resolve_path _data_dir l, g) ∈ gs /\ l ∈ g).
Proof.
  intros gs. subst gs. unfold group_by_path.
  destruct (group_by_path_spec _data_dir R [] (NoDup_nil_2)) as [Hnd Hb].
  pose proof (group_by_path_nonempty _data_dir R [] (Forall_nil_2 _)) as Hne.
  simpl in Hnd, Hb. split; [exact Hnd|]. split.
  - intros p g Hin. split.
    + rewrite Forall_forall in Hne. exact (Hne _ Hin).
    + apply (lookup_group_elem p g _ Hnd) in Hin.
      specialize (Hb p). unfold bucket in Hb. simpl in Hb.
      rewrite Hin in Hb. exact Hb.
  - intros l Hl. specialize (Hb (_resolve_path _data_dir l)).
    unfold bucket in Hb. simpl in Hb.
    assert (Hin : l ∈ routed _data_dir (_resolve_path _data_dir l) R).
    { unfold routed. by apply list_elem_of_filter. }
    destruct (lookup_group _ _) as [g|] eqn:Hg; simpl in Hb.
    + exists g. split; [by apply (lookup_group_elem _ g _ Hnd)|].
      by rewrite Hb.
    + rewrite <- Hb in Hin. by apply elem_of_nil in Hin.
Qed.

Lemma joinpath_listings (dir : Path) :
  joinpath dir "listings.json" = dir ++ ["listings.json"].
Proof. reflexivity. Qed.

Lemma _resolve_path_name (l : ClassifiedListing) :
  exists dir, _resolve_path _data_dir l = dir ++ ["listings.json"].
Proof.
  unfold _resolve_path. destruct (storage_path_parts l) as [[mfr mdl] date].
  cbn [foldl]. rewrite joinpath_listings. eauto.
Qed.

(** X21.  The lock taken for a destination is the file [listings.lock]
    in the directory of the data file, and it is never itself the data
    file of a listing. *)
Theorem lock_file_is_sibling (l : ClassifiedListing) :
  with_suffix (_resolve_path _data_dir l) ".lock" =
    parent (_resolve_path _data_dir l) ++ ["listings.lock"] /\
  forall l', with_suffix (_resolve_path _data_dir l) ".lock" <>
             _resolve_path _data_dir l'.
Proof.
  destruct (_resolve_path_name l) as [dir Hd].
  assert (Hw : with_suffix (_resolve_path _data_dir l) ".lock" =
               dir ++ ["listings.lock"]).
  { rewrite Hd. unfold with_suffix. rewrite last_snoc, removelast_last.
    reflexivity. }
  split.
  - rewrite Hw. unfold parent. by rewrite Hd, removelast_last.
  - intros l'. destruct (_resolve_path_name l') as [dir' Hd']. rewrite Hw, Hd'.
    intros Heq. apply app_inj_tail in Heq as [_ [=]].
Qed.






End StorageMore.

Section StorageTwice.
Import Storage.
Variable _data_dir : Path.
Variables locks locks' : Path -> LockReply.
Variables mkdirs mkdirs' : Path -> MkdirReply.
Variables writes writes' : Path -> WriteReply.





End StorageTwice.

Section LockDisciplineFacts.
Import Storage LockDiscipline.
Variable _data_dir : Path.
Variable locks : Path -> LockReply.
Variable mkdirs : Path -> MkdirReply.
Variable writes : Path -> WriteReply.

Lemma parent_with_suffix (p : Path) (suffix : string) :
  parent (with_suffix p suffix) = parent p.
Proof.
  unfold with_suffix, parent. destruct (last p) as [n|] eqn:E; [|done].
  by rewrite removelast_last.
Qed.

Lemma well_locked_inner lp eff rest :
  Forall (fun e => well_locked (Some lp) [e; Unlock lp] = true) eff ->
  well_locked (Some lp) (eff ++ rest) = well_locked (Some lp) rest.
Proof.
  induction 1 as [|e eff He _ IH]; [reflexivity|].
  simpl app. rewrite <- IH. simpl in He |- *.
  destruct e; try discriminate;
    try (rewrite andb_false_r in He; discriminate);
    apply andb_true_iff in He as [He _]; by rewrite He.
Qed.

Lemma _merge_and_write_effects (P : FsEffect -> Prop) p g disk :
  P (Mkdir (parent p)) -> P (Exists p) -> P (Read p) ->
  (forall rows, P (Write p rows)) -> P (WriteFailed p) ->
  Forall P (snd (fst (_merge_and_write mkdirs writes p g disk))).
Proof.
  intros Hm He Hr Hw Hf. unfold _merge_and_write, merge.
  destruct (mkdirs _); [|by repeat constructor].
  destruct (files disk !! p) as [[rows|[] e|[] e]|];
    try destruct g; try destruct (existing_ids _);
    try destruct (to_dict <$> _); try destruct (writes p); simpl;
    repeat constructor; auto.
Qed.

Lemma _merge_and_write_inner p g disk :
  Forall (fun e => well_locked (Some (with_suffix p ".lock"))
                     [e; Unlock (with_suffix p ".lock")] = true)
         (snd (fst (_merge_and_write mkdirs writes p g disk))).
Proof.
  apply _merge_and_write_effects; simpl;
    rewrite ?parent_with_suffix; intros; by rewrite !bool_decide_eq_true_2.
Qed.

Lemma _write_group_block p g disk rest :
  well_locked None (snd (fst (_write_group locks mkdirs writes p g disk)) ++ rest) =
  well_locked None rest.
Proof.
  unfold _write_group. destruct (locks _); [|reflexivity..].
  pose proof (_merge_and_write_inner p g disk) as Hin.
  destruct (_merge_and_write mkdirs writes p g disk) as [[d e] r].
  simpl in Hin |- *.
  rewrite <- app_assoc, well_locked_inner by done. simpl.
  by rewrite bool_decide_eq_true_2.
Qed.

Lemma write_groups_well_locked gs : forall disk,
  well_locked None (snd (fst (write_groups locks mkdirs writes gs disk))) = true.
Proof.
  induction gs as [|[p g] gs IH]; intros disk; simpl; [reflexivity|].
  pose proof (_write_group_block p g disk) as Hb.
  destruct (_write_group locks mkdirs writes p g disk) as [[d1 e1] n1].
  simpl in Hb. specialize (IH d1).
  destruct (write_groups locks mkdirs writes gs d1) as [[d2 e2] n2].
  simpl in *. by rewrite Hb.
Qed.

(** X24.  [save] keeps to the lock discipline: it touches the file system
    only while it holds the lock of the destination concerned (making the
    directory, probing, reading and writing that destination), it holds one
    lock at a time, and it releases every lock it has taken, also when the
    merge raises. *)
Theorem save_is_well_locked (R : list ClassifiedListing) (disk : Disk) :
  well_locked None (snd (fst (save _data_dir locks mkdirs writes R disk))) = true.
Proof.
  unfold save. destruct R; [reflexivity|]. apply write_groups_well_locked.
Qed.

End LockDisciplineFacts.

Section ManagerFacts.
Import Feed Manager.

(** X25.  A feed manager built from a dict of clients and started has one
    running feed per client; starting it again changes nothing;
    [stop_all] then publishes one [feed.stopped.<source>] per client, in
    the order of the dict, sets every stop event, and leaves running only
    the feeds whose join timed out. *)
Theorem stop_all_stops_every_feed
    (joined : string -> bool)
    (clients : list (string * Auth.ExchangeClient))
    (event_type_ids : list string) (currencies : gmap string string)
    (poll_interval : Z) :
  let fm := start_all (__init__ clients event_type_ids currencies poll_interval) in
  let out := stop_all joined fm in
  status fm = map (fun nc => (fst nc, true)) clients /\
  start_all fm = fm /\
  snd out = map (fun nc => stopped_pub (fst nc)) clients /\
  Forall (fun nf => _stop_event (snd nf) = true) (_feeds (fst out)) /\
  status (fst out) = map (fun nc => (fst nc, negb (joined (fst nc)))) clients.
Proof.
  unfold stop_all, start_all, status, __init__. simpl.
  induction clients as [|[n c] clients IH]; simpl.
  - repeat split; constructor.
  - destruct IH as (IH1 & IH2 & IH3 & IH4 & IH5).
    destruct (stop_each joined _) as [feeds pubs] eqn:E. simpl in *.
    injection IH2 as IH2. rewrite IH1, IH2, IH3, IH5.
    repeat split; try reflexivity.
    + constructor; [reflexivity|exact IH4].
    + by destruct (joined n).
Qed.

End ManagerFacts.

Section SchedulerFacts.
Import Scheduler.

Lemma run_once_keeps r s :
  _interval (fst (fst (run_once r s))) = _interval s /\
  _stop (fst (fst (run_once r s))) = _stop s.
Proof.
  unfold run_once. destruct r as [stats|exc]; [|done].
  destruct (_ ≫= _); done.
Qed.

Lemma batches_stopped turns s :
  _stop s = true ->
  batches turns s = (s, [SchedulerStopped (_batch_count s)], Left).
Proof. intros Hs. destruct turns; simpl; by rewrite Hs. Qed.

Lemma sleep_loop_spec r : forall e signal,
  sleep_loop r e signal =
  match signal with
  | Some k => if (k <=? e)%nat then e else Nat.min k (e + r)
  | None => (e + r)%nat
  end.
Proof.
  induction r as [|r IH]; intros e signal; simpl.
  - destruct signal as [k|]; [|lia].
    destruct (k <=? e)%nat eqn:E; [done|]. apply Nat.leb_gt in E. lia.
  - destruct signal as [k|]; simpl.
    + destruct (k <=? e)%nat eqn:E; [done|]. rewrite IH. apply Nat.leb_gt in E.
      destruct (k <=? S e)%nat eqn:E'.
      * apply Nat.leb_le in E'. lia.
      * apply Nat.leb_gt in E'. lia.
    + rewrite IH. lia.
Qed.

Lemma batches_stop_at_signal pre t post : forall s,
  (signal_in_batch t = true \/
   exists k, signal_in_sleep t = Some k /\ (k <= Z.to_nat (_interval s))%nat) ->
  batches (pre ++ t :: post) s = batches (pre ++ [t]) s /\
  snd (batches (pre ++ t :: post) s) <> Running.
Proof.
  induction pre as [|x pre IH]; intros s Hsig; simpl.
  - destruct (_stop s) eqn:Hs; [done|].
    destruct (run_once_keeps (reply t) s) as [Hi Hst].
    destruct (run_once (reply t) s) as [[s0 ev] r]. simpl in Hi, Hst.
    destruct r as [stats|exc]; [|done]. simpl.
    rewrite Hst, Hs. simpl. destruct (signal_in_batch t) eqn:Hb; [done|].
    destruct Hsig as [Hsig|(k & Hk & Hle)]; [discriminate|].
    rewrite Hi, Hk. simpl.
    assert ((k <=? Z.to_nat (_interval s))%nat = true) as -> by by apply Nat.leb_le.
    rewrite batches_stopped by done. done.
  - destruct (_stop s) eqn:Hs; [done|].
    destruct (run_once_keeps (reply x) s) as [Hi Hst].
    destruct (run_once (reply x) s) as [[s0 ev] r]. simpl in Hi, Hst.
    destruct r as [stats|exc]; [|done]. simpl.
    destruct (_stop s0 || signal_in_batch x); [done|].
    match goal with |- context [batches _ ?s2] =>
      destruct (IH s2) as [IH1 IH2]; [simpl; by rewrite Hi|] end.
    rewrite IH1. destruct (batches (pre ++ [t]) _) as [[s3 ev3] e3] eqn:E.
    split; [done|]. rewrite IH1 in IH2. exact IH2.
Qed.

(** X26.  [run_forever] starts no batch after the shutdown signal: when
    the signal arrives during a batch, or during the sleep that follows
    it, that batch is the last, whatever would have come, and the loop is
    left (or has died earlier).  The sleep makes one call of
    [time.sleep(1)] per second of the interval, and stops at the first
    check after the signal: [k] seconds when the signal comes after [k]
    seconds of sleep. *)
Theorem run_forever_stops_at_signal
    (pre : list Turn) (t : Turn) (post : list Turn) (s : Scheduler) :
  (signal_in_batch t = true \/
   exists k, signal_in_sleep t = Some k /\ (k <= Z.to_nat (_interval s))%nat) ->
  run_forever (pre ++ t :: post) s = run_forever (pre ++ [t]) s /\
  snd (run_forever (pre ++ t :: post) s) <> Running /\
  (forall n signal,
     sleep_loop n 0 signal =
     match signal with Some k => Nat.min k n | None => n end).
Proof.
  intros Hsig. destruct (batches_stop_at_signal pre t post s Hsig) as [H1 H2].
  unfold run_forever. rewrite H1 in H2 |- *.
  destruct (batches (pre ++ [t]) s) as [[s' ev] x]. split; [done|]. split; [done|].
  intros n signal. rewrite sleep_loop_spec. destruct signal as [k|]; [|done].
  destruct (k <=? 0)%nat eqn:E; [|done]. apply Nat.leb_le in E. lia.
Qed.

(** X27.  A batch that raises ends [run_forever]: when [self._client.run()]
    raises, the exception leaves [run_once] and the loop with the batch
    count unchanged; when the stats it returns lack one of the keys
    [records_fetched], [records_written], [sites_failed], the summary line
    raises [KeyError] after the batch has been counted.  In both cases no
    later batch is run. *)
Theorem failing_batch_ends_run_forever
    (t : Turn) (rest : list Turn) (s : Scheduler) :
  _stop s = false ->
  let out := run_forever (t :: rest) s in
  let started := [SchedulerStarting (_interval s);
                  BatchStarting (_batch_count s + 1)] in
  (forall exc, reply t = Raised exc ->
     snd out = Died exc /\ snd (fst out) = started /\
     _batch_count (fst (fst out)) = _batch_count s) /\
  (forall stats, reply t = Returned stats ->
     (stats !! "records_fetched" = None \/
      stats !! "records_written" = None \/
      stats !! "sites_failed" = None) ->
     (exists key, stats !! key = None /\ snd out = Died (KeyError key)) /\
     snd (fst out) = started /\
     _batch_count (fst (fst out)) = _batch_count s + 1).
Proof.
  intros Hs out started. subst out started. unfold run_forever. simpl.
  rewrite Hs. split.
  - intros exc ->. simpl. done.
  - intros stats -> Hmiss. unfold run_once, item.
    destruct (stats !! "records_fetched") as [f|] eqn:Ef; simpl.
    + destruct (stats !! "records_written") as [w|] eqn:Ew; simpl.
      * destruct (stats !! "sites_failed") as [x|] eqn:Ex; simpl.
        -- destruct Hmiss as [?|[?|?]]; discriminate.
        -- split; [|done]. exists "sites_failed". done.
      * split; [|done]. exists "records_written". done.
    + split; [|done]. exists "records_fetched". done.
Qed.

End SchedulerFacts.

Section ListenerFacts.
Import Listener.
Variable Comparison : Type.
Variable compare_markets :
  Z -> gmap string Pubsub.Payload -> Completion (list Comparison).
Variable on_comparison : list Comparison -> Completion unit.

Abbreviation handle :=
  (_handle_odds_event Comparison compare_markets on_comparison).
Abbreviation handle_all :=
  (handle_all Comparison compare_markets on_comparison).

Lemma handle_keeps now event l :
  _snapshots (fst (handle now event l)) =
    <[Pubsub.exchange event := or_empty (Pubsub.data event)]> (_snapshots l) /\
  _min_exchanges (fst (handle now event l)) = _min_exchanges l.
Proof.
  unfold _handle_odds_event, _run_comparison. case_bool_decide; [done|].
  destruct (compare_markets _ _); [|done].
  destruct (on_comparison _); done.
Qed.

Lemma handle_all_grows events : forall l,
  dom (_snapshots l) ⊆ dom (_snapshots (fst (handle_all events l))) /\
  _min_exchanges (fst (handle_all events l)) = _min_exchanges l.
Proof.
  induction events as [|[now event] rest IH]; intros l; simpl; [done|].
  destruct (handle_keeps now event l) as [Hs Hm].
  destruct (handle now event l) as [l1 eff1]. simpl in Hs, Hm.
  destruct (IH l1) as [IH1 IH2].
  destruct (handle_all rest l1) as [l2 eff2]. simpl in *.
  split; [|congruence]. etrans; [|exact IH1].
  rewrite Hs, dom_insert_L. apply union_subseteq_r.
Qed.

(** X28.  The listener holds the latest snapshot of each exchange and
    waits for enough exchanges: after any run of events its snapshot of an
    exchange is the data of the last event of that exchange, and as long
    as fewer than [min_exchanges] exchanges have published, no comparison
    is run, however many events have come. *)
Theorem listener_waits_for_min_exchanges
    (events : list (Z * Pubsub.Event)) (l : OddsListener) :
  let out := handle_all events l in
  (forall ex,
     _snapshots (fst out) !! ex =
     match last (filter (fun te => Pubsub.exchange (snd te) = ex) events) with
     | Some te => Some (or_empty (Pubsub.data (snd te)))
     | None => _snapshots l !! ex
     end) /\
  (Z.of_nat (size (_snapshots (fst out))) < _min_exchanges l ->
   snd out = [] /\ _comparison_count (fst out) = _comparison_count l).
Proof.
  revert l. induction events as [|[now event] rest IH]; intros l; simpl.
  - done.
  - destruct (handle_keeps now event l) as [Hs Hm].
    pose proof (handle_all_grows rest (fst (handle now event l))) as [Hg _].
    assert (Hgate :
      Z.of_nat (size (_snapshots (fst (handle now event l)))) < _min_exchanges l ->
      snd (handle now event l) = [] /\
      _comparison_count (fst (handle now event l)) = _comparison_count l).
    { rewrite Hs. intros Hlt. unfold _handle_odds_event. simpl.
      by rewrite bool_decide_eq_true_2. }
    destruct (handle now event l) as [l1 eff1]. simpl in Hs, Hm, Hg, Hgate.
    destruct (IH l1) as [IH1 IH2].
    destruct (handle_all rest l1) as [l2 eff2]. simpl in *. split.
    + intros ex. rewrite IH1.
      destruct (decide (Pubsub.exchange event = ex)) as [He|Hne].
      * rewrite filter_cons_True by done. rewrite last_cons.
        destruct (last _); [done|]. rewrite Hs, He. by rewrite lookup_insert_eq.
      * rewrite filter_cons_False by done.
        destruct (last _); [done|]. rewrite Hs. by rewrite lookup_insert_ne.
    + intros Hlt.
      assert (Hle : (size (_snapshots l1) <= size (_snapshots l2))%nat).
      { rewrite <- !size_dom. by apply subseteq_size. }
      destruct Hgate as [-> Hc1]; [lia|].
      destruct IH2 as [-> Hc2]; [lia|]. split; [done|congruence].
Qed.

End ListenerFacts.

Section ListenerBusFacts.
Import Pubsub Listener.

(** X29.  The listener remembers one subscription only: after [start()]
    twice and [stop()] once, the first subscription is still on the bus
    and still matches every [odds.<source>] topic, while the listener
    holds none, so that a further [stop()] removes nothing. *)
Theorem second_start_leaves_subscription
    (u1 u2 : string) (h : Handler) (l : OddsListener) (bus : EventBus) :
  u1 <> u2 -> u2 ∉ map id (_subs bus) ->
  let first := {| id := u1; pattern := "odds.*"; handler := h |} in
  let s1 := start u1 h l bus in
  let s2 := start u2 h (fst s1) (snd s1) in
  let s3 := stop (fst s2) (snd s2) in
  _sub (fst s3) = None /\
  _subs (snd s3) = _subs bus ++ [first] /\
  stop (fst s3) (snd s3) = s3 /\
  forall source, first ∈ snapshot (snd s3) ("odds." +:+ source).
Proof.
  intros Hne Hn first s1 s2 s3. subst s3 s2 s1. unfold start, stop. simpl.
  assert (Hsubs : filter (fun s => id s <> u2)
                    ((_subs bus ++ [first]) ++
                     [{| id := u2; pattern := "odds.*"; handler := h |}]) =
                  _subs bus ++ [first]).
  { rewrite filter_app, (filter_cons_False _ _ []) by (simpl; tauto).
    rewrite filter_nil, app_nil_r, filter_app.
    rewrite (filter_cons_True _ _ []) by (simpl; congruence). rewrite filter_nil.
    f_equal. apply filter_all. by apply ids_not_in. }
  split; [done|]. split; [exact Hsubs|]. split; [done|].
  intros source. apply snapshot_elem.
  unfold unsubscribe, unsubscribe_id. cbn [_subs id]. fold first.
  rewrite Hsubs. split.
  - apply elem_of_app. right. apply list_elem_of_here.
  - change (Fnmatch.glob [Fnmatch.STAR] (Fnmatch.codepoints source) = true).
    apply glob_star_iff. exists (Fnmatch.codepoints source), []. split.
    + by rewrite app_nil_r.
    + reflexivity.
Qed.

End ListenerBusFacts.

Section RatesFacts.
Import Rates.
Variable upper : string -> string.
Context {py_repr : PyRepr}.

(** X30.  [rate] answers from the cache whenever it can: USD is 1.0
    without any fetch; within the five minutes of the cache TTL, with rates
    at hand, no request is made; and when a request fails, the rates
    fetched earlier are used as they are, the failure being raised only if
    there are none. *)
Theorem rate_falls_back_on_cached_rates
    (now : Z) (reply : FetchReply) (currency : string) (fx : ExchangeRates) :
  let code := upper currency in
  let cached :=
    match _rates fx !! code with
    | Some r => Returned r
    | None =>
        Raised (Error "ValueError"
                  ("Unsupported currency: " +:+ repr code +:+
                   ". Available: [" +:+
                   join ", " (repr <$> sorted (elements (dom (_rates fx)))) +:+
                   "]"))
    end in
  (code = "USD" -> rate upper now reply currency fx = (fx, [], Returned 1%Q)) /\
  (code <> "USD" -> now - _fetched_at fx < 300 -> _rates fx <> ∅ ->
   rate upper now reply currency fx = (fx, [], cached)) /\
  (code <> "USD" ->
   forall exc, reply = FetchFailed exc ->
     ~ (now - _fetched_at fx < 300 /\ _rates fx <> ∅) ->
     rate upper now reply currency fx =
     if bool_decide (_rates fx = ∅) then (fx, [HttpGet], Raised exc)
     else (fx, [HttpGet], cached)).
Proof.
  intros code cached. subst code cached. unfold rate. split; [|split].
  - intros ->. reflexivity.
  - intros Hne Hage Hr. rewrite bool_decide_eq_false_2 by done.
    unfold _ensure_fresh, _CACHE_TTL_SECONDS.
    rewrite bool_decide_eq_true_2 by done.
    rewrite (bool_decide_eq_false_2 (_rates fx = ∅)) by done. simpl.
    by destruct (_rates fx !! upper currency).
  - intros Hne exc -> Hstale. rewrite bool_decide_eq_false_2 by done.
    unfold _ensure_fresh, _CACHE_TTL_SECONDS, _fetch.
    destruct (bool_decide (now - _fetched_at fx < 300)) eqn:Ha;
      destruct (bool_decide (_rates fx = ∅)) eqn:Hb; simpl; try done.
    + apply bool_decide_eq_true in Ha. apply bool_decide_eq_false in Hb. tauto.
    + by destruct (_rates fx !! upper currency).
Qed.

End RatesFacts.

Section MoreWitnesses.

Lemma async_delivery_is_fifo_witness :
  snd (fst (Pubsub.publish 1 "odds.alpha" "alpha" Pubsub.NoData
              {| Pubsub._subs := Pubsub._subs Pubsub.sample_bus;
                 Pubsub._async := true; Pubsub._queue := [] |})) = [].
Proof.
  refine (proj1 (async_delivery_is_fifo 1 2 "odds.alpha" "odds.beta"
                   "alpha" "beta" Pubsub.NoData Pubsub.NoData
                   {| Pubsub._subs := Pubsub._subs Pubsub.sample_bus;
                      Pubsub._async := true; Pubsub._queue := [] |} _)).
  reflexivity.
Defined.

Lemma authenticate_all_force_calls_everyone_witness :
  exists o,
    Auth.authenticate_all Auth.sample_manager true 100 = Returned o /\
    Auth.invoked o = dom (Auth._clients Auth.sample_manager).
Proof.
  destruct (authenticate_all_force_calls_everyone Auth.sample_manager 100)
    as (o & Ho & Hi & _).
  - simpl. lia.
  - exists o. split; [exact Ho|exact Hi].
Defined.

Lemma authenticate_all_nothing_stale_witness :
  Auth.authenticate_all Auth.sample_manager false 100 =
  Returned {| Auth.manager := Auth.sample_manager; Auth.invoked := ∅ |}.
Proof.
  apply authenticate_all_nothing_stale.
  - vm_compute. reflexivity.
  - vm_compute. reflexivity.
Defined.

Lemma authenticate_all_needs_workers_witness :
  Auth.authenticate_all
    {| Auth._clients := {["betfair" := Auth.sample_client]};
       Auth._token_ttl := 3600; Auth._max_workers := 0;
       Auth._results := ∅ |} true 100 =
  Raised (Error "ValueError" "max_workers must be greater than 0").
Proof.
  refine (proj1 (authenticate_all_needs_workers
                   {| Auth._clients := {["betfair" := Auth.sample_client]};
                      Auth._token_ttl := 3600; Auth._max_workers := 0;
                      Auth._results := ∅ |} 100 _) _).
  - simpl. lia.
  - simpl. apply insert_non_empty.
Defined.

Lemma authenticate_all_unknown_client_witness :
  exists missing,
    Auth.authenticate_all
      {| Auth._clients := {["betfair" := Auth.sample_client]};
         Auth._token_ttl := 3600; Auth._max_workers := 8;
         Auth._results := ∅ |} false 100 = Raised (KeyError missing).
Proof.
  destruct (authenticate_all_unknown_client
              {| Auth._clients := {["betfair" := Auth.sample_client]};
                 Auth._token_ttl := 3600; Auth._max_workers := 8;
                 Auth._results := ∅ |} 100) as (missing & _ & _ & H).
  - exists "betfair". split; [|reflexivity]. simpl.
    rewrite dom_singleton_L. by apply elem_of_singleton.
  - exists missing. exact H.
Defined.

Lemma sample_manager_consistent : Auth.consistent Auth.sample_manager.
Proof.
  split; [vm_compute; reflexivity|]. intros name r H.
  unfold Auth.sample_manager in H. cbn [Auth._results] in H.
  apply lookup_singleton_Some in H as [_ <-]. simpl. eauto.
Defined.

Lemma fresh_sessions_are_ready_witness :
  exists o ready,
    Auth.authenticate_all Auth.sample_manager true 4000 = Returned o /\
    snd (Auth.authenticated_clients (Auth.manager o) 5000) = Returned ready.
Proof.
  destruct (authenticate_all_force_returns Auth.sample_manager 4000) as [o Ho].
  - simpl. lia.
  - destruct (fresh_sessions_are_ready Auth.sample_manager 4000 5000 o
                sample_manager_consistent Ho) as (ready & Hr & _).
    + simpl. lia.
    + exists o, ready. split; [exact Ho|exact Hr].
Defined.

Lemma sweep_absorbs_earlier_sweep_witness :
  Auth._mark_expired (Auth._mark_expired Auth.sample_manager 100) 4000 =
  Auth._mark_expired Auth.sample_manager 4000.
Proof. apply sweep_absorbs_earlier_sweep. lia. Defined.

Lemma loop_ends_at_stop_request_witness :
  let last_turn := {| Feed.clock := 0; Feed.client := Auth.sample_client;
                      Feed.peers := ∅; Feed.stop_requested := true |} in
  Feed.loop_from (py_repr := quoted) true ([] ++ last_turn :: [last_turn])
    (Feed.fresh_feed "betfair") Auth.sample_manager =
  Feed.loop_from (py_repr := quoted) true ([] ++ [last_turn])
    (Feed.fresh_feed "betfair") Auth.sample_manager.
Proof.
  intros last_turn.
  refine (proj1 (loop_ends_at_stop_request (py_repr := quoted)
                   true [] last_turn [last_turn]
                   (Feed.fresh_feed "betfair") Auth.sample_manager _)).
  reflexivity.
Defined.

Lemma poll_reauthenticates_stale_session_witness :
  Auth._results
    (Feed.poll_auth (Feed._poll 4000 Auth.sample_client
                       (Feed.fresh_feed "betfair") Auth.sample_manager))
    !! "betfair" =
  Some (Auth._auth_one 4000 "betfair" Auth.sample_client).
Proof.
  refine (proj1 (poll_reauthenticates_stale_session 4000 Auth.sample_client
                   (Feed.fresh_feed "betfair") Auth.sample_manager
                   {| Auth.exchange := "betfair"; Auth.status := Auth.SUCCESS;
                      Auth.authenticated_at := Some 0; Auth.error := None |}
                   _ _ _ _ _ _)).
  - reflexivity.
  - vm_compute. reflexivity.
  - simpl. lia.
  - vm_compute. reflexivity.
  - vm_compute. reflexivity.
  - reflexivity.
Defined.

Lemma poll_trusts_fresh_record_witness :
  Feed.poll_result (Feed._poll 100 Auth.sample_client
                      (Feed.fresh_feed "betfair") Auth.sample_manager) =
  Returned tt.
Proof.
  refine (proj2 (poll_trusts_fresh_record 100 Auth.sample_client
                   (Feed.fresh_feed "betfair") Auth.sample_manager
                   {| Auth.exchange := "betfair"; Auth.status := Auth.SUCCESS;
                      Auth.authenticated_at := Some 0; Auth.error := None |}
                   _ _ _ _ _)).
  - reflexivity.
  - vm_compute. reflexivity.
  - simpl. lia.
  - vm_compute. reflexivity.
  - reflexivity.
Defined.



Lemma run_forever_stops_at_signal_witness :
  let t := {| Scheduler.reply := Returned Scheduler.full_stats;
              Scheduler.signal_in_batch := false;
              Scheduler.signal_in_sleep := Some 2%nat |} in
  let next := {| Scheduler.reply := Returned Scheduler.full_stats;
                 Scheduler.signal_in_batch := false;
                 Scheduler.signal_in_sleep := None |} in
  let s := Scheduler.__init__ (Some 5) ∅ in
  Scheduler.run_forever ([] ++ t :: [next]) s =
    Scheduler.run_forever ([] ++ [t]) s /\
  snd (Scheduler.run_forever ([] ++ t :: [next]) s) <> Scheduler.Running.
Proof.
  intros t next s.
  destruct (run_forever_stops_at_signal [] t [next] s) as (H1 & H2 & _).
  - right. exists 2%nat. split; [reflexivity|]. vm_compute. lia.
  - split; [exact H1|exact H2].
Defined.

Lemma failing_batch_ends_run_forever_witness :
  snd (Scheduler.run_forever
         [{| Scheduler.reply := Raised (Error "RuntimeError" "boom");
             Scheduler.signal_in_batch := false;
             Scheduler.signal_in_sleep := None |}]
         (Scheduler.__init__ None ∅)) =
  Scheduler.Died (Error "RuntimeError" "boom").
Proof.
  refine (proj1 (proj1 (failing_batch_ends_run_forever
                          {| Scheduler.reply := Raised (Error "RuntimeError" "boom");
                             Scheduler.signal_in_batch := false;
                             Scheduler.signal_in_sleep := None |} []
                          (Scheduler.__init__ None ∅) _)
                   (Error "RuntimeError" "boom") _)).
  - reflexivity.
  - reflexivity.
Defined.

Lemma second_start_leaves_subscription_witness :
  Pubsub._subs
    (snd (Listener.stop
            (fst (Listener.start "u2" Pubsub.quiet
                    (fst (Listener.start "u1" Pubsub.quiet
                            (Listener.__init__ 2) (Pubsub.__init__ false)))
                    (snd (Listener.start "u1" Pubsub.quiet
                            (Listener.__init__ 2) (Pubsub.__init__ false)))))
            (snd (Listener.start "u2" Pubsub.quiet
                    (fst (Listener.start "u1" Pubsub.quiet
                            (Listener.__init__ 2) (Pubsub.__init__ false)))
                    (snd (Listener.start "u1" Pubsub.quiet
                            (Listener.__init__ 2) (Pubsub.__init__ false))))))) =
  [] ++ [{| Pubsub.id := "u1"; Pubsub.pattern := "odds.*";
            Pubsub.handler := Pubsub.quiet |}].
Proof.
  refine (proj1 (proj2 (second_start_leaves_subscription "u1" "u2" Pubsub.quiet
                          (Listener.__init__ 2) (Pubsub.__init__ false) _ _))).
  - discriminate.
  - simpl. apply not_elem_of_nil.
Defined.

End MoreWitnesses.
